(** * Script-to-video generator: a shallow embedding of [app.py]

    The development follows the source top-down: the text utilities
    ([split_into_scenes], [safe_keyword_text]), the media values that MoviePy
    and Pillow hand back (images, audio clips, video clips), and the
    effectful pipeline ([fetch_image_from_pexels], [make_placeholder_image],
    [build_video]) written in a state-and-exception monad over a world made
    of a file system and a log of the external calls.

    Python [str] values that the program inspects character by character are
    lists of Unicode code points ([list N]); file names, dictionary keys and
    exception messages, which the program only builds and passes on, are
    [string]s.  Durations are Python floats; the program only compares them
    ([max]) and hands them on, which is exact on finite floats, so they are
    modelled as rationals. *)

From Stdlib Require Import ZArith NArith QArith Lia.
From stdpp Require Import base list strings gmap pretty.

Abbreviation str := (list N).

(** ** Python [str] values *)

Module Text.

Local Open Scope N_scope.

(** A literal of the source, as code points. *)
Definition py (s : string) : str :=
  map Ascii.N_of_ascii (String.list_ascii_of_string s).

Definition NL : N := 10.
Definition SP : N := 32.

(** [str.isspace] on one code point; the same set drives [str.strip],
    [str.split()] and the regex class [\s] on [str] patterns. *)
Definition isspace (c : N) : bool :=
  ((9 <=? c) && (c <=? 13)) || ((28 <=? c) && (c <=? 32))
  || (c =? 133) || (c =? 160) || (c =? 5760)
  || ((8192 <=? c) && (c <=? 8202))
  || (c =? 8232) || (c =? 8233) || (c =? 8239) || (c =? 8287)
  || (c =? 12288).

(** The regex class [[A-Za-z0-9]]. *)
Definition is_alnum (c : N) : bool :=
  ((65 <=? c) && (c <=? 90)) || ((97 <=? c) && (c <=? 122))
  || ((48 <=? c) && (c <=? 57)).

(** The regex class [[.!?]]. *)
Definition is_terminator (c : N) : bool :=
  (c =? 46) || (c =? 33) || (c =? 63).

Fixpoint lstrip (s : str) : str :=
  match s with
  | [] => []
  | c :: s' => if isspace c then lstrip s' else s
  end.

Definition rstrip (s : str) : str := rev (lstrip (rev s)).

(** [s.strip()] *)
Definition strip (s : str) : str := rstrip (lstrip s).

Fixpoint starts_with (p s : str) : bool :=
  match p, s with
  | [], _ => true
  | _ :: _, [] => false
  | a :: p', b :: s' => (a =? b) && starts_with p' s'
  end.

(** [p in s] *)
Fixpoint str_contains (p s : str) : bool :=
  match s with
  | [] => starts_with p []
  | _ :: s' => starts_with p s || str_contains p s'
  end.

(** [sep.join(l)] *)
Fixpoint str_join (sep : str) (l : list str) : str :=
  match l with
  | [] => []
  | [x] => x
  | x :: l' => x ++ sep ++ str_join sep l'
  end.

(** [s.split(sep)] for a non-empty [sep], scanning left to right: [cur]
    holds the piece being read (reversed) and [skip] the number of
    characters of an already recognised separator still to pass over. *)
Fixpoint split_go (sep : str) (skip : nat) (cur : str) (s : str) : list str :=
  match s with
  | [] => [rev cur]
  | c :: s' =>
      match skip with
      | S k => split_go sep k cur s'
      | O =>
          if starts_with sep s
          then rev cur :: split_go sep (length sep - 1) [] s'
          else split_go sep 0 (c :: cur) s'
      end
  end.

Definition str_split (sep : str) (s : str) : list str := split_go sep 0 [] s.

(** [s.split()]: maximal runs of non-whitespace characters. *)
Fixpoint words_go (cur : str) (s : str) : list str :=
  match s with
  | [] => match cur with [] => [] | _ => [rev cur] end
  | c :: s' =>
      if isspace c
      then match cur with
           | [] => words_go [] s'
           | _ => rev cur :: words_go [] s'
           end
      else words_go (c :: cur) s'
  end.

Definition str_words (s : str) : list str := words_go [] s.

(** [re.sub(r'[^A-Za-z0-9\s]', '', s)] *)
Definition drop_symbols (s : str) : str :=
  List.filter (fun c => is_alnum c || isspace c) s.

(** [re.sub(r'\s+', ' ', s)]: every maximal run of whitespace becomes one
    space; [in_run] tells that the run was already replaced. *)
Fixpoint collapse_go (in_run : bool) (s : str) : str :=
  match s with
  | [] => []
  | c :: s' =>
      if isspace c
      then if in_run then collapse_go true s' else SP :: collapse_go true s'
      else c :: collapse_go false s'
  end.

Definition collapse_ws (s : str) : str := collapse_go false s.

(** [re.split(r'(?<=[.!?])\s+', s)].  A match starts at a whitespace
    character whose predecessor is one of [.!?] and extends over the whole
    run of whitespace.  [after_term] says that the previous character was
    a terminator, [in_gap] that a match is being consumed. *)
Fixpoint re_split_go (after_term in_gap : bool) (cur : str) (s : str)
  : list str :=
  match s with
  | [] => [rev cur]
  | c :: s' =>
      if isspace c then
        if in_gap then re_split_go false true cur s'
        else if after_term then rev cur :: re_split_go false true [] s'
        else re_split_go false false (c :: cur) s'
      else re_split_go (is_terminator c) false (c :: cur) s'
  end.

Definition re_split_sentences (s : str) : list str :=
  re_split_go false false [] s.

(** Whitespace-only strings, the empty one included. *)
Definition all_space (s : str) : Prop := Forall (λ c, isspace c = true) s.

(** A word: a non-empty string without whitespace. *)
Definition no_space (s : str) : Prop := Forall (λ c, isspace c = false) s.
Definition is_word (s : str) : Prop := s <> [] /\ no_space s.

(** The number of words of a phrase, [len(s.split())]. *)
Definition word_count (s : str) : nat := length (str_words s).

End Text.

Import Text.

(** ** Scene segmentation and keyword extraction *)

Definition blank_line : str := [NL; NL].

(** [[p.strip() for p in xs if p.strip()]] *)
Definition stripped_nonempty (xs : list str) : list str :=
  filter (λ p : str, p ≠ []) (strip <$> xs).

(** One turn of the grouping loop: [chunk.append(s)], then flush the chunk
    once it holds three sentences. *)
Definition group_step (st : list str * list str) (s : str)
  : list str * list str :=
  let '(scenes, chunk) := st in
  let chunk := chunk ++ [s] in
  if (3 <=? length chunk)%nat
  then (scenes ++ [str_join [SP] chunk], [])
  else (scenes, chunk).

Definition group_sentences (sentences : list str) : list str :=
  let '(scenes, chunk) := foldl group_step ([], []) sentences in
  match chunk with
  | [] => scenes
  | _ => scenes ++ [str_join [SP] chunk]
  end.

(** The sentences of a trimmed script (lines 52-53). *)
Definition sentences_of (script : str) : list str :=
  stripped_nonempty (re_split_sentences script).

Definition split_into_scenes (script : str) : list str :=
  let script := strip script in
  let parts :=
    if str_contains blank_line script
    then stripped_nonempty (str_split blank_line script)
    else [] in
  match parts with
  | _ :: _ => parts
  | [] =>
      match group_sentences (sentences_of script) with
      | [] => [script]
      | scenes => scenes
      end
  end.

Definition default_keywords : str := py "abstract background".

(** Lines 65-67: the words of the scene text. *)
Definition keyword_words (text : str) : list str :=
  let cleaned := drop_symbols text in
  let cleaned := strip (collapse_ws cleaned) in
  str_words cleaned.

Definition safe_keyword_text (text fallback : str) : str :=
  let words := keyword_words text in
  if (length words <? 2)%nat && bool_decide (fallback ≠ []) then fallback
  else
    match words with
    | _ :: _ => str_join [SP] (take 6 words)
    | [] => match fallback with [] => default_keywords | _ => fallback end
    end.

(** ** Media values

    What Pillow and MoviePy hand back, reduced to the fields the program
    sets or reads.  MoviePy's operations follow their documented contract:
    [resize(height=H)] scales to height [H] keeping the aspect ratio and
    [on_color(size=S)] composes the clip on a canvas of size [S]. *)

Module Media.

Definition rgb : Type := Z * Z * Z.

Inductive pixels :=
  | Photo                                  (* a downloaded picture *)
  | CaptionCard (background : rgb) (caption : str) (at_xy : Z * Z)
                (fill : rgb).

Record image := Image {
  img_size : positive * positive;
  img_pixels : pixels }.

(** Contents of a file, as the readers of the program see it. *)
Inductive file :=
  | AudioFile (duration : Q)
  | ImageFile (im : image)
  | OtherFile.

Record audio_clip := AudioClip {
  audio_file : string;
  audio_duration : Q }.

Inductive visual :=
  | Still (im : image)
  | Resized (size : Z * Z) (v : visual)
  | OnColor (canvas : Z * Z) (color : rgb) (v : visual).

Record video_clip := VideoClip {
  clip_size : Z * Z;
  clip_duration : option Q;
  clip_audio : option audio_clip;
  clip_visual : visual }.

(** [max(a, b)] of Python: the first argument unless the second is
    strictly greater. *)
Definition py_max (a b : Q) : Q :=
  if Qle_bool b a then a else b.

Definition set_duration (c : video_clip) (d : Q) : video_clip :=
  VideoClip (clip_size c) (Some d) (clip_audio c) (clip_visual c).

Definition resize_height (c : video_clip) (h : Z) : video_clip :=
  let size := ((clip_size c).1 * h / (clip_size c).2, h)%Z in
  VideoClip size (clip_duration c) (clip_audio c)
            (Resized size (clip_visual c)).

Definition on_color (c : video_clip) (size : Z * Z) (color : rgb)
  : video_clip :=
  VideoClip size (clip_duration c) (clip_audio c)
            (OnColor size color (clip_visual c)).

Definition set_audio (c : video_clip) (a : audio_clip) : video_clip :=
  VideoClip (clip_size c) (clip_duration c) (Some a) (clip_visual c).

(** [ImageClip] of a decoded picture: no duration, no audio yet. *)
Definition image_clip (im : image) : video_clip :=
  VideoClip (Z.pos (img_size im).1, Z.pos (img_size im).2) None None
            (Still im).

(** The result of [concatenate_videoclips(clips, method="compose")].  Its
    duration, a float sum of the durations of the clips, is read by the
    encoder only and is not part of the model. *)
Record timeline := Timeline {
  tl_size : Z * Z;
  tl_clips : list video_clip }.

Inductive codec := libx264 | mpeg4.

End Media.

Import Media.

(** The literal [0.1] of line 127.  A finite float is below the float
    [0.1] exactly when it is below one tenth, so the comparison of line 127
    is the comparison with [1 # 10]. *)
Definition min_duration : Q := 1 # 10.

(** Lines 127-129: the clip of one scene, from the decoded picture and the
    narration. *)
Definition scene_clip (im : image) (audio : audio_clip) : video_clip :=
  let ic := set_duration (image_clip im)
                         (py_max (audio_duration audio) min_duration) in
  let ic := on_color (resize_height ic 720) (1280, 720)%Z (0, 0, 0)%Z in
  set_audio ic audio.

(** ** The pipeline and its effects *)

(** A raised Python exception, an instance of [Exception] (the only ones
    [except Exception] catches and the only ones the services raise). *)
Record exn := Exn { exn_class : string; exn_message : string }.

Inductive outcome (A : Type) :=
  | Returned (a : A)
  | Raised (e : exn).
Arguments Returned {A} a.
Arguments Raised {A} e.

(** Calls to the surroundings (narration, image provider, encoder, user
    interface), in the order they are made. *)
Inductive event :=
  | Ev_tts (text : str) (path : string)
  | Ev_search (api_key : string) (query : str)
  | Ev_download (url : string)
  | Ev_warning (query : str) (e : exn)
  | Ev_progress (done total : nat)
  | Ev_encode (c : codec) (path : string) (fps : nat).

Record world := World {
  files : gmap string file;
  log : list event }.

(** What the surroundings of a run answer.  Each field is a function of the
    arguments of the call it stands for. *)
Record services := Services {
  (* Some e when there is no secrets file: every access to st.secrets,
     st.secrets.get and the test [in] included, then raises e *)
  secrets_missing : option exn;
  (* st.secrets, when there is a secrets file *)
  secrets : gmap string string;
  (* the directory tempfile.mkdtemp returns *)
  tempdir : string;
  (* gTTS(text).save(path): the duration of the audio written, or the
     exception of the constructor or of the request *)
  gtts_save : str -> string -> outcome Q;
  (* lines 79-82: the "src" dictionaries of data["photos"], or the exception
     of the request, of raise_for_status or of the decoding *)
  pexels_search : string -> str -> outcome (list (gmap string string));
  (* lines 88-89: the body of the picture *)
  fetch_url : string -> outcome file;
  (* opening a path for writing (line 90, and img.save of line 105): None
     when the file can be written *)
  open_write : string -> option exn;
  (* write_videofile: None when the file was encoded *)
  ffmpeg_encode : codec -> timeline -> string -> nat -> option exn;
  (* textwrap.wrap(text, width) *)
  textwrap_wrap : str -> nat -> list str;
  (* ImageDraw.multiline_textsize with the default font: the size of the
     text, or the exception of the call (UnicodeEncodeError where the
     default bitmap font cannot encode a character, AttributeError where
     Pillow no longer has the method) *)
  multiline_textsize : str -> outcome (Z * Z) }.

Definition M (A : Type) : Type := world -> outcome A * world.

#[global] Instance M_ret : MRet M := λ A a w, (Returned a, w).
#[global] Instance M_bind : MBind M := λ A B f m w,
  match m w with
  | (Returned a, w') => f a w'
  | (Raised e, w') => (Raised e, w')
  end.

Definition raise {A} (e : exn) : M A := λ w, (Raised e, w).

(** [try: body  except Exception as e: handler(e)] *)
Definition try_except {A} (body : M A) (handler : exn -> M A) : M A := λ w,
  match body w with
  | (Returned a, w') => (Returned a, w')
  | (Raised e, w') => handler e w'
  end.

Definition emit (ev : event) : M unit :=
  λ w, (Returned (), World (files w) (log w ++ [ev])).

Definition write_file (path : string) (f : file) : M unit :=
  λ w, (Returned (), World (<[path := f]> (files w)) (log w)).

Definition read_file (path : string) : M (option file) :=
  λ w, (Returned (files w !! path), w).

Definition of_outcome {A} (o : outcome A) : M A :=
  match o with
  | Returned a => mret a
  | Raised e => raise e
  end.

Section Pipeline.

Variable env : services.

(** [AudioFileClip(path)] *)
Definition AudioFileClip (path : string) : M audio_clip :=
  f ← read_file path;
  match f with
  | Some (AudioFile d) => mret (AudioClip path d)
  | _ => raise (Exn "OSError" path)
  end.

(** [ImageClip(path)] *)
Definition ImageClip (path : string) : M image :=
  f ← read_file path;
  match f with
  | Some (ImageFile im) => mret im
  | _ => raise (Exn "OSError" path)
  end.

(** An access to [st.secrets]. *)
Definition read_secrets : M (gmap string string) :=
  match secrets_missing env with
  | Some e => raise e
  | None => mret (secrets env)
  end.

(** Writing a file that the program opens itself. *)
Definition save_file (path : string) (f : file) : M unit :=
  match open_write env path with
  | Some e => raise e
  | None => write_file path f
  end.

(** Lines 115-117. *)
Definition synthesize (scene : str) (path : string) : M unit :=
  emit (Ev_tts scene path);;
  d ← of_outcome (gtts_save env scene path);
  write_file path (AudioFile d).

(** [a or b or c] over the results of [dict.get]. *)
Definition truthy (v : option string) : option string :=
  match v with
  | Some s => if bool_decide (s = "") then None else Some s
  | None => None
  end.

Definition first_truthy (a b c : option string) : option string :=
  match truthy a with
  | Some s => Some s
  | None => match truthy b with
            | Some s => Some s
            | None => truthy c
            end
  end.

Definition fetch_image_from_pexels (query : str) (dest_path : string)
  : M bool :=
  found ← read_secrets;
  let api_key := default "" (found !! "PEXELS_API_KEY") in
  if bool_decide (api_key = "") then mret false
  else
    try_except
      (emit (Ev_search api_key query);;
       photos ← of_outcome (pexels_search env api_key query);
       match photos with
       | [] => mret false
       | photo :: _ =>
           match first_truthy (photo !! "large") (photo !! "medium")
                              (photo !! "original") with
           | None => mret false
           | Some src =>
               emit (Ev_download src);;
               img ← of_outcome (fetch_url env src);
               save_file dest_path img;;
               mret true
           end
       end)
      (λ e, emit (Ev_warning query e);; mret false).

Definition default_size : positive * positive := (1280, 720)%positive.

Definition make_placeholder_image (text : str) (dest_path : string)
    (size : positive * positive) : M unit :=
  let wrapped := take 400 (str_join [NL] (textwrap_wrap env text 40)) in
  measured ← of_outcome (multiline_textsize env wrapped);
  let x := ((Z.pos size.1 - measured.1) `div` 2)%Z in
  let y := ((Z.pos size.2 - measured.2) `div` 2)%Z in
  save_file dest_path
    (ImageFile (Image size (CaptionCard (20, 20, 20)%Z wrapped (x, y)
                                        (230, 230, 230)%Z))).

Definition scene_path (i : nat) (ext : string) : string :=
  tempdir env +:+ "/scene_" +:+ pretty i +:+ ext.

(** The body of the loop of [build_video] for scene number [i]. *)
Definition build_scene (topic_keywords : str) (total i : nat) (scene : str)
  : M video_clip :=
  let audio_file := scene_path i ".mp3" in
  synthesize scene audio_file;;
  audio_clip ← AudioFileClip audio_file;
  let img_file := scene_path i ".jpg" in
  let query := safe_keyword_text scene topic_keywords in
  ok ← fetch_image_from_pexels query img_file;
  (if ok : bool then mret ()
   else make_placeholder_image (take 120 scene) img_file default_size);;
  im ← ImageClip img_file;
  let ic := scene_clip im audio_clip in
  emit (Ev_progress (i + 1) total);;
  mret ic.

(** [for i, scene in enumerate(scenes)], from index [i] on, with the clips
    appended so far. *)
Fixpoint build_scenes (topic_keywords : str) (total i : nat)
    (scenes : list str) (clips : list video_clip) : M (list video_clip) :=
  match scenes with
  | [] => mret clips
  | scene :: rest =>
      ic ← build_scene topic_keywords total i scene;
      build_scenes topic_keywords total (S i) rest (clips ++ [ic])
  end.

Definition max_over (f : video_clip -> Z) (clips : list video_clip) : Z :=
  foldr (λ c acc, Z.max (f c) acc) 0%Z clips.

(** [concatenate_videoclips(clips, method="compose")]: adding up the
    durations raises where a clip has none, and [max()] of an empty
    sequence raises. *)
Definition concatenate_videoclips (clips : list video_clip) : M timeline :=
  if negb (forallb (λ c, bool_decide (is_Some (clip_duration c))) clips) then
    raise (Exn "TypeError" "unsupported operand type(s) for +")
  else
    match clips with
    | [] => raise (Exn "ValueError" "max() arg is an empty sequence")
    | _ =>
        mret (Timeline (max_over (λ c, (clip_size c).1) clips,
                        max_over (λ c, (clip_size c).2) clips)
                       clips)
    end.

Definition write_videofile (final : timeline) (output_path : string)
    (fps : nat) (c : codec) : M unit :=
  emit (Ev_encode c output_path fps);;
  match ffmpeg_encode env c final output_path fps with
  | None => mret ()
  | Some e => raise e
  end.

(** Lines 134-139. *)
Definition encode_with_fallback (final : timeline) (output_path : string)
    (fps : nat) : M unit :=
  try_except (write_videofile final output_path fps libx264)
             (λ _, write_videofile final output_path fps mpeg4).

(** Lines 133-139. *)
Definition assemble (clips : list video_clip) (output_path : string)
    (fps : nat) : M unit :=
  final ← concatenate_videoclips clips;
  encode_with_fallback final output_path fps.

Definition build_video (scenes : list str) (topic_keywords : str)
    (output_path : string) (fps : nat) : M unit :=
  let total := Nat.max (length scenes) 1 in
  emit (Ev_progress 0 total);;
  clips ← build_scenes topic_keywords total 0 scenes [];
  assemble clips output_path fps.

End Pipeline.

(** ** Vocabulary of the statements *)

(** The caption drawn by [make_placeholder_image] (line 101). *)
Definition wrapped_caption (env : services) (text : str) : str :=
  take 400 (str_join [NL] (textwrap_wrap env text 40)).

(** The events a computation added to the log. *)
Definition new_events (w w' : world) : list event :=
  drop (length (log w)) (log w').

(** [m] only appends to the log, and outcome and appended events satisfy
    [Q]. *)
Definition traced {A} (Q : outcome A -> list event -> Prop) (m : M A) : Prop :=
  forall w, exists evs, log (m w).2 = log w ++ evs /\ Q (m w).1 evs.

(** [m] only appends events that satisfy [P]. *)
Definition emits {A} (P : event -> Prop) (m : M A) : Prop :=
  traced (λ _ evs, Forall P evs) m.

(** Requests to the image provider. *)
Definition is_image_request (ev : event) : Prop :=
  match ev with
  | Ev_search _ _ | Ev_download _ => True
  | _ => False
  end.

Definition is_encode (ev : event) : Prop :=
  match ev with Ev_encode _ _ _ => True | _ => False end.

(** An event other than an encoding or a narration request that failed. *)
Definition narrated (env : services) (ev : event) : Prop :=
  match ev with
  | Ev_tts text path => exists d, gtts_save env text path = Returned d
  | Ev_encode _ _ _ => False
  | _ => True
  end.

(** A run up to the end of the scene loop: either every narration request
    was answered, or the run stopped with the exception of the last
    request, the only one that failed. *)
Definition narration_post (env : services) {A} (o : outcome A)
    (evs : list event) : Prop :=
  Forall (narrated env) evs
  \/ exists evs0 text path e,
       evs = evs0 ++ [Ev_tts text path]
       /\ Forall (narrated env) evs0
       /\ gtts_save env text path = Raised e
       /\ o = Raised e.

Definition narrating (env : services) {A} (m : M A) : Prop :=
  traced (narration_post env) m.

(** Every value [m] can return satisfies [R]. *)
Definition returns {A} (R : A -> Prop) (m : M A) : Prop :=
  forall w a w', m w = (Returned a, w') -> R a.

(** A clip at least as long as the floor of line 127. *)
Definition long_enough (c : video_clip) : Prop :=
  exists d, clip_duration c = Some d /\ (min_duration <= d)%Q.

(** The address line 85 picks from the photos of a search. *)
Definition chosen_url (photos : list (gmap string string)) : option string :=
  match photos with
  | [] => None
  | photo :: _ =>
      first_truthy (photo !! "large") (photo !! "medium")
                   (photo !! "original")
  end.

(** The placeholder of scene [i] can be drawn and saved: its caption can be
    measured and its file can be written. *)
Definition placeholder_ok (env : services) (i : nat) (scene : str) : Prop :=
  (exists measured,
     multiline_textsize env (wrapped_caption env (take 120 scene))
       = Returned measured)
  /\ open_write env (scene_path env i ".jpg") = None.

(** The secrets can be read and hold no usable key: it is absent or
    empty. *)
Definition unconfigured (env : services) : Prop :=
  secrets_missing env = None
  /\ default "" (secrets env !! "PEXELS_API_KEY") = "".

(** A clip that shows a placeholder card on the 1280x720 canvas. *)
Definition shows_placeholder (c : video_clip) : Prop :=
  match clip_visual c with
  | OnColor _ _ (Resized _ (Still (Image size (CaptionCard _ _ _ _)))) =>
      size = default_size
  | _ => False
  end.

(** The reading of C3 as stated: the index of the scene whose narration
    failed can be read off the reported error. *)
Definition names_failing_scene (index_of : exn -> nat) : Prop :=
  forall env scenes topic out fps w i scene e,
    scenes !! i = Some scene ->
    Ev_tts scene (scene_path env i ".mp3")
      ∈ new_events w (build_video env scenes topic out fps w).2 ->
    gtts_save env scene (scene_path env i ".mp3") = Raised e ->
    exists e', (build_video env scenes topic out fps w).1 = Raised e'
               /\ index_of e' = i.

(** ** A concrete run

    Surroundings without credential in which narrating the text ["fail"]
    fails and the two encoders answer as given. *)
(** A text measurement in the manner of Pillow 9.5 with its default bitmap
    font: a size for a caption of Latin-1 characters (here six by eleven
    pixels per character), an exception for any other character. *)
Definition bitmap_textsize (text : str) : outcome (Z * Z) :=
  if forallb (λ c, (c <? 256)%N) text
  then Returned (6 * Z.of_nat (length text), 11)%Z
  else Raised (Exn "UnicodeEncodeError"
                   "'latin-1' codec can't encode character").

Definition connection_error : exn :=
  Exn "gTTSError" "Failed to connect. Probable cause: Unknown".

Definition demo_services (x264 mp4 : option exn) : services := {|
  secrets_missing := None;
  secrets := ∅;
  tempdir := "/tmp/s2v_demo";
  gtts_save := λ text _,
    if bool_decide (text = py "fail") then Raised connection_error
    else Returned (42 # 10);
  pexels_search := λ _ _, Returned [];
  fetch_url := λ _, Returned OtherFile;
  open_write := λ _, None;
  ffmpeg_encode := λ c _ _ _, match c with libx264 => x264 | mpeg4 => mp4 end;
  textwrap_wrap := λ text _, [text];
  multiline_textsize := bitmap_textsize |}.

(** Surroundings without secrets file: every access to [st.secrets]
    raises. *)
Definition no_secrets_file : exn :=
  Exn "StreamlitSecretNotFoundError" "No secrets found.".

Definition bare_services : services := {|
  secrets_missing := Some no_secrets_file;
  secrets := ∅;
  tempdir := "/tmp/s2v_bare";
  gtts_save := λ _ _, Returned 3%Q;
  pexels_search := λ _ _, Returned [];
  fetch_url := λ _, Returned OtherFile;
  open_write := λ _, None;
  ffmpeg_encode := λ _ _ _ _, None;
  textwrap_wrap := λ text _, [text];
  multiline_textsize := bitmap_textsize |}.

Definition fresh_world : world := World ∅ [].

Definition encoder_error (c : codec) : exn :=
  Exn "OSError"
      match c with libx264 => "libx264 failed" | mpeg4 => "mpeg4 failed" end.

(** ** The button handler (lines 156-174)

    What the page shows and what the click leaves behind.  [out_path] stands
    for the path of line 167 and the frame rate is the 24 of line 169. *)

Inductive ui_event :=
  | Ui_error (msg : string)
  | Ui_warning (msg : string)
  | Ui_scene_count (n : nat)
  | Ui_success
  | Ui_video (path : string)
  | Ui_download (path : string).

Inductive ui_result :=
  | Stopped                       (* st.stop() *)
  | Finished
  | Failed (e : exn).

Record session := Session {
  shown : list ui_event;
  result : ui_result;
  after : world }.

Definition generate_clicked (env : services) (script keywords : str)
    (out_path : string) (w : world) : session :=
  if bool_decide (strip script = []) then
    Session [Ui_error "Please paste a script first."] Stopped w
  else
    match secrets_missing env with
    | Some e => Session [] (Failed e) w          (* the test of line 161 *)
    | None =>
        let warned :=
          match secrets env !! "PEXELS_API_KEY" with
          | None =>
              [Ui_warning
                 "No PEXELS_API_KEY found in Streamlit Secrets. The app will use placeholder images."]
          | Some _ => []
          end in
        let scenes := split_into_scenes script in
        let shown := warned ++ [Ui_scene_count (length scenes)] in
        match build_video env scenes keywords out_path 24 w with
        | (Returned _, w') =>
            Session (shown ++ [Ui_success; Ui_video out_path;
                               Ui_download out_path])
                    Finished w'
        | (Raised e, w') => Session shown (Failed e) w'
        end
    end.

(** ** Further vocabulary *)

(** The characters of a string that are not whitespace, in order. *)
Definition non_space_chars (s : str) : str :=
  List.filter (λ c, negb (isspace c)) s.

(** The first character, if any, is not whitespace. *)
Definition clean_start (s : str) : Prop :=
  match s with
  | [] => True
  | c :: _ => isspace c = false
  end.

(** Unchanged by [strip]. *)
Definition trimmed (s : str) : Prop := strip s = s.

(** A non-empty string whose two ends are not whitespace. *)
Definition solid (s : str) : Prop :=
  s <> [] /\ clean_start s /\ clean_start (rev s).

(** The narration requests of a log, in order. *)
Definition tts_requests (evs : list event) : list (str * string) :=
  omap (λ ev, match ev with
              | Ev_tts text path => Some (text, path)
              | _ => None
              end) evs.

(** The narration requests a run over [scenes] makes when nothing fails,
    the first scene having index [i]. *)
Fixpoint narration_plan (env : services) (i : nat) (scenes : list str)
  : list (str * string) :=
  match scenes with
  | [] => []
  | scene :: rest =>
      (scene, scene_path env i ".mp3") :: narration_plan env (S i) rest
  end.

Definition is_tts (ev : event) : Prop :=
  match ev with Ev_tts _ _ => True | _ => False end.

(** A search carries a key and a query that are not empty. *)
Definition well_formed_request (ev : event) : Prop :=
  match ev with
  | Ev_search api_key query => api_key <> "" /\ query <> []
  | _ => True
  end.

(** The last character is one of [.!?]. *)
Definition ends_with_terminator (s : str) : Prop :=
  exists q c, s = q ++ [c] /\ is_terminator c = true.

(** The [pieces] with the [gaps] between them, in order. *)
Fixpoint weave (pieces gaps : list str) : str :=
  match pieces with
  | [] => []
  | p :: ps =>
      match gaps with
      | [] => p ++ concat ps
      | g :: gs => p ++ g ++ weave ps gs
      end
  end.

(** Somewhere inside [s] one of [.!?] is followed by whitespace: the place
    where the boundary rule of line 52 breaks a text. *)
Definition inner_break (s : str) : Prop :=
  exists a c d b,
    s = a ++ c :: d :: b /\ is_terminator c = true /\ isspace d = true.

(** A clip made by lines 127-129. *)
Definition built_clip (c : video_clip) : Prop :=
  exists im audio, c = scene_clip im audio.

(** Every body the download service hands out decodes as a picture. *)
Definition pictures_only (env : services) : Prop :=
  forall url body, fetch_url env url = Returned body ->
                   exists im, body = ImageFile im.

(** Surroundings with a credential: the search knows one photo for the
    query ["space rockets"] and raises for every other query; every download
    delivers a 2000x500 picture; narrations last 3 s. *)
Definition rate_limited : exn := Exn "HTTPError" "429 Client Error".

Definition stock_services : services := {|
  secrets_missing := None;
  secrets := {[ "PEXELS_API_KEY" := "key-123" ]};
  tempdir := "/tmp/s2v_stock";
  gtts_save := λ _ _, Returned 3%Q;
  pexels_search := λ _ query,
    if bool_decide (query = py "space rockets")
    then Returned [ {[ "medium" := "https://images.example/1.jpg" ]} ]
    else Raised rate_limited;
  fetch_url := λ _, Returned (ImageFile (Image (2000, 500)%positive Photo));
  open_write := λ _, None;
  ffmpeg_encode := λ _ _ _ _, None;
  textwrap_wrap := λ text _, [text];
  multiline_textsize := bitmap_textsize |}.

(** Surroundings whose key is present but empty. *)
Definition empty_key_services : services := {|
  secrets_missing := None;
  secrets := {[ "PEXELS_API_KEY" := "" ]};
  tempdir := "/tmp/s2v_empty";
  gtts_save := λ _ _, Returned 3%Q;
  pexels_search := λ _ _, Returned [];
  fetch_url := λ _, Returned OtherFile;
  open_write := λ _, None;
  ffmpeg_encode := λ _ _ _ _, None;
  textwrap_wrap := λ text _, [text];
  multiline_textsize := bitmap_textsize |}.

(** * Properties *)

(** ** The text functions on samples *)

Example str_split_sample :
  str_split blank_line (py "a" ++ [NL; NL; NL] ++ py "b" ++ [NL; NL])
    = [py "a"; NL :: py "b"; []].
Proof. reflexivity. Qed.

Example re_split_sentences_sample :
  re_split_sentences (py "a. b.c !  d. ")
    = [py "a."; py "b.c !"; py "d."; []].
Proof. reflexivity. Qed.

Example strip_sample : strip (py "  a b " ++ [NL]) = py "a b".
Proof. reflexivity. Qed.

Example split_into_scenes_paragraphs :
  split_into_scenes (py "Hello world. This is scene one." ++ [NL; NL]
                     ++ py "This is scene two.")
    = [py "Hello world. This is scene one."; py "This is scene two."].
Proof. reflexivity. Qed.

Example split_into_scenes_prose :
  split_into_scenes (py "A. B! C? D.  E") = [py "A. B! C?"; py "D. E"].
Proof. reflexivity. Qed.

Example safe_keyword_text_sample :
  safe_keyword_text (py "Hello, world! it's  9 o'clock now ok fine yes") []
    = py "Hello world its 9 oclock now".
Proof. reflexivity. Qed.

Example safe_keyword_text_default : safe_keyword_text (py "?!") [] =
  py "abstract background".
Proof. reflexivity. Qed.

(** ** Trimming and searching *)

Section TextFacts.

Implicit Types (s t p sep cur : str) (l : list str) (c : N).

Lemma lstrip_all_space s : all_space s -> lstrip s = [].
Proof.
  induction 1 as [|c s Hc _ IH]; simpl; [done|]. by rewrite Hc.
Qed.

Lemma lstrip_head s :
  match lstrip s with [] => True | c :: _ => isspace c = false end.
Proof.
  induction s as [|c s IH]; simpl; [done|].
  destruct (isspace c) eqn:Hc; [done|]. exact Hc.
Qed.

Lemma lstrip_nil_all_space s : lstrip s = [] -> all_space s.
Proof.
  induction s as [|c s IH]; simpl; [constructor|].
  destruct (isspace c) eqn:Hc; [|done].
  intros H. constructor; [exact Hc | exact (IH H)].
Qed.

Lemma lstrip_suffix s : exists a, s = a ++ lstrip s.
Proof.
  induction s as [|c s [a IH]]; simpl; [by exists []|].
  destruct (isspace c).
  - exists (c :: a). simpl. by rewrite <- IH.
  - by exists [].
Qed.

Lemma all_space_rev s : all_space s -> all_space (rev s).
Proof.
  unfold all_space. rewrite !Forall_forall. intros H c Hc.
  apply H. apply list_elem_of_In. apply in_rev. by apply list_elem_of_In.
Qed.

(** A trimmed string that consists of whitespace only is empty. *)
Lemma strip_all_space_nil s : all_space (strip s) -> strip s = [].
Proof.
  unfold strip, rstrip. intros H.
  apply all_space_rev in H. rewrite rev_involutive in H.
  pose proof (lstrip_head (rev (lstrip s))) as Hh.
  destruct (lstrip (rev (lstrip s))) as [|c r]; [done|].
  inversion H; congruence.
Qed.

Lemma strip_of_all_space s : all_space s -> strip s = [].
Proof.
  intros H. unfold strip, rstrip. by rewrite (lstrip_all_space s H).
Qed.

Lemma strip_nil_all_space s : strip s = [] -> all_space s.
Proof.
  unfold strip, rstrip. intros H.
  apply (f_equal (@rev N)) in H. rewrite rev_involutive in H. simpl in H.
  apply lstrip_nil_all_space, all_space_rev in H.
  rewrite rev_involutive in H.
  pose proof (lstrip_head s) as Hh.
  destruct (lstrip s) as [|c r] eqn:E.
  - by apply lstrip_nil_all_space.
  - inversion H; congruence.
Qed.

(** The trimmed string is a contiguous part of the string. *)
Lemma strip_infix s : exists a b, s = a ++ strip s ++ b.
Proof.
  destruct (lstrip_suffix s) as [a Ha].
  destruct (lstrip_suffix (rev (lstrip s))) as [b Hb].
  exists a, (rev b). unfold strip, rstrip.
  rewrite <- rev_app_distr, <- Hb, rev_involutive. exact Ha.
Qed.

Lemma starts_with_spec p s :
  starts_with p s = true <-> exists r, s = p ++ r.
Proof.
  revert s. induction p as [|a p IH]; intros s; simpl.
  - split; eauto.
  - destruct s as [|b s].
    + split; [done|]. by intros [r Hr].
    + rewrite andb_true_iff, N.eqb_eq, IH. split.
      * intros [-> [r ->]]. by exists r.
      * intros [r Hr]. injection Hr as -> ->. eauto.
Qed.

Lemma str_contains_spec p s :
  str_contains p s = true <-> exists a b, s = a ++ p ++ b.
Proof.
  induction s as [|c s IH]; simpl.
  - rewrite starts_with_spec. split.
    + intros [r Hr]. by exists [], r.
    + intros [a [b H]]. symmetry in H.
      apply app_eq_nil in H as [-> H]. eauto.
  - rewrite orb_true_iff, starts_with_spec, IH. split.
    + intros [[r Hr]|[a [b Hab]]].
      * by exists [], r.
      * exists (c :: a), b. by rewrite Hab.
    + intros [[|a0 a] [b H]].
      * left. by exists b.
      * right. injection H as _ H. eauto.
Qed.

Lemma str_contains_strip p s :
  str_contains p (strip s) = true -> str_contains p s = true.
Proof.
  rewrite !str_contains_spec. intros [a [b H]].
  destruct (strip_infix s) as [x [y Hxy]].
  exists (x ++ a), (b ++ y). rewrite Hxy at 1. rewrite H.
  by rewrite <- !app_assoc.
Qed.

End TextFacts.

(** ** Splitting on a separator *)

Section SplitFacts.

Implicit Types (s t p sep cur : str) (l : list str) (c : N).

Lemma split_go_skip sep k cur s :
  split_go sep k cur s = split_go sep 0 cur (drop k s).
Proof.
  revert k. induction s as [|c s IH]; intros [|k]; simpl; auto.
Qed.

Lemma split_go_cons sep cur c s :
  split_go sep 0 cur (c :: s) =
    if starts_with sep (c :: s)
    then rev cur :: split_go sep (length sep - 1) [] s
    else split_go sep 0 (c :: cur) s.
Proof. reflexivity. Qed.

Lemma split_go_nonempty sep k cur s : split_go sep k cur s <> [].
Proof.
  revert k cur. induction s as [|c s IH]; intros k cur; [done|].
  destruct k as [|k]; [|apply IH].
  rewrite split_go_cons. destruct (starts_with sep (c :: s)); [done|apply IH].
Qed.

Lemma str_join_cons sep x l :
  l <> [] -> str_join sep (x :: l) = x ++ sep ++ str_join sep l.
Proof. by destruct l. Qed.

Lemma split_go_join sep n :
  sep <> [] ->
  forall s cur, length s <= n ->
    str_join sep (split_go sep 0 cur s) = rev cur ++ s.
Proof.
  intros Hsep. induction n as [|n IH]; intros [|c s] cur Hn; simpl in Hn;
    try lia; try (simpl; by rewrite app_nil_r).
  rewrite split_go_cons.
  destruct (starts_with sep (c :: s)) eqn:E.
  - apply starts_with_spec in E as [r Hr].
    destruct sep as [|a sep']; [done|].
    injection Hr as -> ->.
    rewrite split_go_skip.
    replace (length (a :: sep') - 1) with (length sep') by (simpl; lia).
    rewrite drop_app_length.
    rewrite str_join_cons by apply split_go_nonempty.
    rewrite IH by (rewrite length_app in Hn; lia).
    reflexivity.
  - rewrite IH by lia. simpl. by rewrite <- app_assoc.
Qed.

(** Joining the pieces of [s.split(sep)] with [sep] gives [s] back: the
    pieces are the separator-delimited parts of [s], in order. *)
Lemma str_split_join sep s :
  sep <> [] -> str_join sep (str_split sep s) = s.
Proof.
  intros Hsep. unfold str_split.
  by rewrite (split_go_join sep (length s) Hsep s []).
Qed.

Lemma no_early_occurrence sep x s :
  sep <> [] ->
  (forall a b, x ++ s = a ++ sep ++ b -> length x <= length a) ->
  str_contains sep x = false.
Proof.
  intros Hsep H. destruct (str_contains sep x) eqn:E; [|done].
  apply str_contains_spec in E as [a [b Hab]].
  specialize (H a (b ++ s)). rewrite Hab, <- !app_assoc in H.
  specialize (H eq_refl). rewrite !length_app in H.
  destruct sep; [done|]. simpl in H. lia.
Qed.

Lemma split_go_free sep n :
  sep <> [] ->
  forall s cur, length s <= n ->
    (forall a b, rev cur ++ s = a ++ sep ++ b -> length cur <= length a) ->
    Forall (λ p, str_contains sep p = false) (split_go sep 0 cur s).
Proof.
  intros Hsep. induction n as [|n IH]; intros [|c s] cur Hn Hinv;
    simpl in Hn; try lia.
  - repeat constructor. apply (no_early_occurrence sep _ []); [done|].
    intros a b. rewrite length_rev. apply Hinv.
  - repeat constructor. apply (no_early_occurrence sep _ []); [done|].
    intros a b. rewrite length_rev. apply Hinv.
  - rewrite split_go_cons. destruct (starts_with sep (c :: s)) eqn:E.
    + constructor.
      * apply (no_early_occurrence sep _ (c :: s)); [done|].
        intros a b. rewrite length_rev. apply Hinv.
      * apply starts_with_spec in E as [r Hr].
        destruct sep as [|x sep'] eqn:Esep; [done|].
        injection Hr as -> ->. rewrite split_go_skip.
        replace (length (x :: sep') - 1) with (length sep')
          by (simpl; lia).
        rewrite drop_app_length. rewrite <- Esep in *.
        apply IH; [rewrite length_app in Hn; lia|].
        intros a b _. simpl. lia.
    + apply IH; [lia|]. intros a b Hab.
      simpl in Hab. rewrite <- app_assoc in Hab. simpl in Hab.
      pose proof (Hinv a b Hab) as Hle. simpl.
      destruct (decide (length cur = length a)) as [Heq|]; [|lia].
      apply app_inj_1 in Hab as [_ Hab]; [|by rewrite length_rev].
      assert (starts_with sep (c :: s) = true)
        by (apply starts_with_spec; eauto).
      congruence.
Qed.

(** No piece of [s.split(sep)] contains the separator. *)
Lemma str_split_free sep s :
  sep <> [] -> Forall (λ p, str_contains sep p = false) (str_split sep s).
Proof.
  intros Hsep. apply (split_go_free sep (length s) Hsep); [done|].
  intros a b _. simpl. lia.
Qed.

Lemma str_join_all_space sep l :
  all_space sep -> Forall all_space l -> all_space (str_join sep l).
Proof.
  intros Hsep. induction 1 as [|x l Hx Hl IH]; [constructor|].
  destruct l as [|y l]; [exact Hx|].
  change (all_space (x ++ sep ++ str_join sep (y :: l))).
  unfold all_space in *. rewrite !Forall_app. auto.
Qed.

Lemma stripped_nonempty_nil l :
  stripped_nonempty l = [] -> Forall all_space l.
Proof.
  unfold stripped_nonempty. induction l as [|x l IH]; [constructor|].
  rewrite fmap_cons, filter_cons. destruct (decide (strip x ≠ [])) as [|E].
  - done.
  - intros H. constructor; [|exact (IH H)].
    apply strip_nil_all_space.
    destruct (strip x); [done|]. by destruct E.
Qed.

Lemma stripped_nonempty_spec l :
  Forall (λ p, p <> [] /\ exists x, x ∈ l /\ p = strip x)
         (stripped_nonempty l).
Proof.
  unfold stripped_nonempty. apply Forall_forall. intros p Hp.
  apply list_elem_of_filter in Hp as [Hne Hp].
  apply list_elem_of_fmap in Hp as [x [-> Hx]]. eauto.
Qed.

Lemma blank_line_all_space : all_space blank_line.
Proof. by repeat constructor. Qed.

End SplitFacts.

(** ** Words *)

Section WordFacts.

Implicit Types (s w cur rest : str) (ws : list str) (c : N).

Lemma no_space_rev s : no_space s -> no_space (rev s).
Proof.
  unfold no_space. rewrite !Forall_forall. intros H c Hc.
  apply H. apply list_elem_of_In. apply in_rev. by apply list_elem_of_In.
Qed.

Lemma rev_not_nil s : s <> [] -> rev s <> [].
Proof.
  intros H E. apply H. apply (f_equal (@rev N)) in E.
  by rewrite rev_involutive in E.
Qed.

Lemma words_go_word w cur rest :
  no_space w -> words_go cur (w ++ rest) = words_go (rev w ++ cur) rest.
Proof.
  intros Hw. revert cur.
  induction Hw as [|c w Hc _ IH]; intros cur; [done|].
  simpl. rewrite Hc, IH. by rewrite <- app_assoc.
Qed.

Lemma words_go_flush cur :
  cur <> [] -> words_go cur [] = [rev cur].
Proof. by destruct cur. Qed.

Lemma words_go_space cur rest :
  cur <> [] -> words_go cur (SP :: rest) = rev cur :: words_go [] rest.
Proof. by destruct cur. Qed.

(** Splitting a phrase built from words with single spaces gives the
    words back. *)
Lemma str_words_join ws :
  Forall is_word ws -> str_words (str_join [SP] ws) = ws.
Proof.
  unfold str_words.
  induction 1 as [|w ws [Hne Hw] Hws IH]; [done|].
  destruct ws as [|y ws].
  - simpl. rewrite <- (app_nil_r w) at 1.
    rewrite words_go_word, app_nil_r by done.
    rewrite words_go_flush by (by apply rev_not_nil).
    by rewrite rev_involutive.
  - change (str_join [SP] (w :: y :: ws))
      with (w ++ SP :: str_join [SP] (y :: ws)).
    rewrite words_go_word, app_nil_r by done.
    rewrite words_go_space by (by apply rev_not_nil).
    by rewrite rev_involutive, IH.
Qed.

Lemma words_go_are_words cur s :
  no_space cur -> Forall is_word (words_go cur s).
Proof.
  revert cur. induction s as [|c s IH]; intros cur Hcur; simpl.
  - destruct cur as [|a cur]; [constructor|].
    repeat constructor; [by apply rev_not_nil | by apply no_space_rev].
  - destruct (isspace c) eqn:Hc.
    + destruct cur as [|a cur]; [by apply IH|].
      constructor; [|apply IH; constructor].
      split; [by apply rev_not_nil | by apply no_space_rev].
    + apply IH. by constructor.
Qed.

Lemma str_words_are_words s : Forall is_word (str_words s).
Proof. apply words_go_are_words. constructor. Qed.

Lemma word_count_join ws :
  Forall is_word ws -> word_count (str_join [SP] ws) = length ws.
Proof. intros H. unfold word_count. by rewrite str_words_join. Qed.

End WordFacts.

(** ** Keyword phrases *)

(** C2, as stated, fails: with a one-word scene text the seven-word
    fallback comes back unchanged. *)
Lemma safe_keyword_text_long_fallback :
  safe_keyword_text (py "Hello!") (py "one two three four five six seven")
    = py "one two three four five six seven"
  /\ word_count (safe_keyword_text (py "Hello!")
                   (py "one two three four five six seven")) = 7
  /\ ~ word_count (safe_keyword_text (py "Hello!")
                     (py "one two three four five six seven")) <= 6.
Proof.
  split; [reflexivity|]. split; [reflexivity|].
  vm_compute. lia.
Qed.

(** C2, amended.  When the scene text has fewer than two words and the
    fallback is not empty, [safe_keyword_text] returns the fallback
    unchanged, whatever its number of words; in every other case (two words
    or more in the scene text, or an empty fallback) the phrase it returns
    has at most 6 words. *)
Theorem safe_keyword_text_words (text fallback : str) :
  (length (keyword_words text) < 2 -> fallback <> [] ->
     safe_keyword_text text fallback = fallback)
  /\ (2 <= length (keyword_words text) \/ fallback = [] ->
        word_count (safe_keyword_text text fallback) <= 6).
Proof.
  unfold safe_keyword_text.
  pose proof (str_words_are_words
                (strip (collapse_ws (drop_symbols text)))) as Hw.
  fold (keyword_words text) in Hw.
  split.
  - intros Hlt Hne.
    apply Nat.ltb_lt in Hlt. rewrite Hlt.
    by rewrite bool_decide_eq_true_2.
  - intros Hcase.
    assert (Hguard : (length (keyword_words text) <? 2)
                     && bool_decide (fallback ≠ []) = false).
    { destruct Hcase as [Hge| ->].
      - apply Nat.ltb_ge in Hge. by rewrite Hge.
      - rewrite bool_decide_eq_false_2 by (by intros H).
        by rewrite andb_false_r. }
    rewrite Hguard.
    destruct (keyword_words text) as [|w ws] eqn:E.
    + destruct Hcase as [Hge| ->]; [simpl in Hge; lia|].
      vm_compute. lia.
    + rewrite word_count_join.
      * rewrite length_take. lia.
      * by apply Forall_take.
Qed.

Lemma safe_keyword_text_words_witness :
  safe_keyword_text (py "Hello!") (py "space rockets") = py "space rockets"
  /\ word_count (safe_keyword_text
                   (py "It's 9 o'clock: the rocket leaves the pad now!")
                   (py "space rockets")) <= 6.
Proof.
  split.
  - apply (safe_keyword_text_words (py "Hello!") (py "space rockets"));
      [vm_compute; lia | done].
  - apply (safe_keyword_text_words
             (py "It's 9 o'clock: the rocket leaves the pad now!")
             (py "space rockets")).
    left. vm_compute. lia.
Defined.

(** ** Scenes delimited by blank lines *)



(** ** Scenes grouped from sentences *)

Section GroupFacts.

Implicit Types (s : str) (chunk sentences : list str)
               (full : list (list str)).

Lemma group_step_eq (scenes : list str) chunk s :
  group_step (scenes, chunk) s =
    if 3 <=? length (chunk ++ [s])
    then (scenes ++ [str_join [SP] (chunk ++ [s])], [])
    else (scenes, chunk ++ [s]).
Proof. reflexivity. Qed.

(** The invariant of the grouping loop: the scenes flushed so far are
    full chunks of three, the open chunk holds fewer than three
    sentences, and together they are the sentences read so far. *)
Lemma group_step_fold sentences :
  forall full chunk,
    Forall (λ c, length c = 3) full -> length chunk < 3 ->
    exists full' chunk',
      foldl group_step (str_join [SP] <$> full, chunk) sentences
        = (str_join [SP] <$> full', chunk')
      /\ Forall (λ c, length c = 3) full'
      /\ length chunk' < 3
      /\ concat full' ++ chunk' = concat full ++ chunk ++ sentences.
Proof.
  induction sentences as [|s sentences IH]; intros full chunk Hfull Hlen.
  - exists full, chunk. by rewrite app_nil_r.
  - cbn [foldl]. rewrite group_step_eq.
    destruct (3 <=? length (chunk ++ [s])) eqn:E.
    + apply Nat.leb_le in E. rewrite length_app in E. simpl in E.
      destruct (IH (full ++ [chunk ++ [s]]) []) as (f & c & H1 & H2 & H3 & H4).
      * apply Forall_app. split; [done|].
        repeat constructor. rewrite length_app. simpl. lia.
      * simpl. lia.
      * exists f, c. rewrite fmap_app in H1. simpl in H1.
        split; [exact H1|]. split; [exact H2|]. split; [exact H3|].
        rewrite H4, concat_app. simpl.
        by rewrite !app_nil_r, <- !app_assoc.
    + apply Nat.leb_gt in E.
      destruct (IH full (chunk ++ [s]) Hfull ltac:(lia)) as (f & c & H1 & H2 & H3 & H4).
      exists f, c. split; [exact H1|]. split; [exact H2|].
      split; [exact H3|]. by rewrite H4, <- !app_assoc.
Qed.

Lemma group_sentences_chunks sentences :
  sentences <> [] ->
  exists full last,
    group_sentences sentences = str_join [SP] <$> (full ++ [last])
    /\ concat (full ++ [last]) = sentences
    /\ Forall (λ c, length c = 3) full
    /\ 1 <= length last <= 3.
Proof.
  intros Hne. unfold group_sentences.
  destruct (group_step_fold sentences [] []) as (f & c & H1 & H2 & H3 & H4);
    [constructor | simpl; lia |].
  simpl in H1, H4. rewrite H1.
  destruct c as [|x c].
  - rewrite app_nil_r in H4.
    destruct f as [|y f _] using rev_ind; [by destruct Hne|].
    apply Forall_app in H2 as [H2 Hy]. inversion Hy; subst.
    exists f, y. repeat split; auto; lia.
  - exists f, (x :: c). rewrite fmap_app. simpl.
    split; [done|]. rewrite concat_app. simpl. rewrite app_nil_r.
    repeat split; auto; simpl in *; lia.
Qed.

Lemma str_join_not_nil sep (chunk : list str) :
  chunk <> [] -> Forall (λ s, s <> []) chunk -> str_join sep chunk <> [].
Proof.
  intros Hne Hall. destruct chunk as [|x chunk]; [done|].
  inversion Hall as [|? ? Hx _]; subst.
  destruct chunk as [|y chunk]; [exact Hx|].
  change (x ++ sep ++ str_join sep (y :: chunk) <> []).
  by destruct x.
Qed.

(** The path of lines 52-62, taken when the trimmed script has no
    blank-line separator. *)
Lemma split_into_scenes_sentence_path (script : str) :
  str_contains blank_line (strip script) = false ->
  sentences_of (strip script) <> [] ->
  exists full last,
    split_into_scenes script = str_join [SP] <$> (full ++ [last])
    /\ concat (full ++ [last]) = sentences_of (strip script)
    /\ Forall (λ c, length c = 3) full
    /\ 1 <= length last <= 3
    /\ Forall (λ scene : str, scene <> []) (split_into_scenes script).
Proof.
  intros Hc Hne.
  destruct (group_sentences_chunks _ Hne) as (full & last & H1 & H2 & H3 & H4).
  assert (Hs : split_into_scenes script
               = str_join [SP] <$> (full ++ [last])).
  { unfold split_into_scenes. rewrite Hc, H1.
    rewrite fmap_app. simpl.
    by destruct ((str_join [SP] <$> full) ++ [str_join [SP] last]) eqn:E;
      [destruct (str_join [SP] <$> full)|]. }
  exists full, last. repeat split; try done; try lia.
  rewrite Hs. apply Forall_fmap, Forall_forall. intros chunk Hin. simpl.
  apply str_join_not_nil.
  - apply elem_of_app in Hin as [Hin|Hin].
    + rewrite Forall_forall in H3. apply H3 in Hin. by destruct chunk.
    + apply list_elem_of_singleton in Hin as ->. destruct last; simpl in *; [lia|done].
  - apply Forall_forall. intros x Hx.
    assert (Hmem : x ∈ sentences_of (strip script)).
    { rewrite <- H2. apply list_elem_of_In, in_concat.
      exists chunk. split; by apply list_elem_of_In. }
    pose proof (stripped_nonempty_spec (re_split_sentences (strip script)))
      as Hspec.
    rewrite Forall_forall in Hspec. by apply Hspec in Hmem as [? _].
Qed.

End GroupFacts.

(** ** Empty and whitespace-only scripts *)

(** C9.  For the empty script and for every script made of whitespace only,
    [split_into_scenes] returns one scene, the empty string (the trimmed
    script). *)
Theorem split_into_scenes_whitespace (script : str) :
  all_space script -> split_into_scenes script = [[]].
Proof.
  intros H. unfold split_into_scenes. rewrite (strip_of_all_space _ H).
  reflexivity.
Qed.

Lemma split_into_scenes_whitespace_witness :
  split_into_scenes [] = [[]]
  /\ split_into_scenes (py "   " ++ [NL; 9%N; NL]) = [[]].
Proof.
  split; apply split_into_scenes_whitespace; by repeat constructor.
Defined.

(** ** The clip of a scene *)

Lemma py_max_ge (a b : Q) : (b <= a)%Q -> py_max a b = a.
Proof.
  intros H. unfold py_max. apply Qle_bool_iff in H. by rewrite H.
Qed.

Lemma py_max_lt (a b : Q) : (a < b)%Q -> py_max a b = b.
Proof.
  intros H. unfold py_max. destruct (Qle_bool b a) eqn:E; [|done].
  apply Qle_bool_iff in E. exfalso. by apply (Qlt_not_le a b).
Qed.

Lemma py_max_floor (a b : Q) : (b <= py_max a b)%Q.
Proof.
  unfold py_max. destruct (Qle_bool b a) eqn:E.
  - by apply Qle_bool_iff.
  - apply Qle_refl.
Qed.

(** C1, as stated, fails: a narration of 0.05 s is longer than 0 s, and the
    clip built from it lasts 0.1 s. *)
Lemma scene_clip_short_narration :
  let im := Image (400, 300)%positive Photo in
  let audio := AudioClip "scene_0.mp3" (1 # 20) in
  (0 < audio_duration audio)%Q
  /\ clip_duration (scene_clip im audio) = Some (1 # 10)
  /\ ~ (1 # 10 == audio_duration audio)%Q.
Proof.
  split; [reflexivity|]. split; [reflexivity|]. by intros H.
Qed.

(** C1, amended.  For every picture and every narration, the clip of the
    scene has the 1280x720 canvas and carries the narration as its audio;
    its duration equals the duration d of the narration exactly whenever
    d >= 0.1. *)
Theorem scene_clip_duration_and_canvas (im : image) (audio : audio_clip) :
  clip_size (scene_clip im audio) = (1280, 720)%Z
  /\ clip_audio (scene_clip im audio) = Some audio
  /\ ((min_duration <= audio_duration audio)%Q ->
        clip_duration (scene_clip im audio) = Some (audio_duration audio)).
Proof.
  split; [reflexivity|]. split; [reflexivity|].
  intros H. simpl. by rewrite py_max_ge.
Qed.

Lemma scene_clip_duration_and_canvas_witness :
  let audio := AudioClip "scene_0.mp3" (42 # 10) in
  clip_size (scene_clip (Image (400, 300)%positive Photo) audio)
    = (1280, 720)%Z
  /\ clip_size (scene_clip (Image (2000, 500)%positive Photo) audio)
     = (1280, 720)%Z
  /\ clip_duration (scene_clip (Image (400, 300)%positive Photo) audio)
     = Some (42 # 10)
  /\ clip_duration (scene_clip (Image (2000, 500)%positive Photo) audio)
     = Some (42 # 10).
Proof.
  intros audio.
  split; [apply scene_clip_duration_and_canvas|].
  split; [apply scene_clip_duration_and_canvas|].
  split; apply scene_clip_duration_and_canvas; by vm_compute.
Defined.

Lemma scene_clip_long_enough (im : image) (audio : audio_clip) :
  long_enough (scene_clip im audio).
Proof.
  exists (py_max (audio_duration audio) min_duration).
  split; [reflexivity | apply py_max_floor].
Qed.

(** ** Running the pipeline *)

Section MonadFacts.

Context {A B : Type}.
Implicit Types (m : M A) (f : A -> M B) (w : world).

Lemma run_bind m f w a w1 :
  m w = (Returned a, w1) -> (m ≫= f) w = f a w1.
Proof. intros H. unfold mbind, M_bind. by rewrite H. Qed.

Lemma run_bind_raised m f w e w1 :
  m w = (Raised e, w1) -> (m ≫= f) w = (Raised e, w1).
Proof. intros H. unfold mbind, M_bind. by rewrite H. Qed.

Lemma returns_bind (R1 : A -> Prop) (R : B -> Prop) m f :
  returns R1 m -> (forall a, R1 a -> returns R (f a)) ->
  returns R (m ≫= f).
Proof.
  intros Hm Hf w b w' H. unfold mbind, M_bind in H.
  destruct (m w) as [[a|e] w1] eqn:E; [|done].
  eapply Hf; [|exact H]. by eapply Hm.
Qed.

Lemma returns_ret (R : A -> Prop) (a : A) : R a -> returns R (mret a).
Proof. intros H w a' w' E. by injection E as <- _. Qed.

Lemma returns_any m : returns (λ _, True) m.
Proof. by intros w a w' _. Qed.

Lemma traced_bind (Q1 : outcome A -> list event -> Prop)
    (Q2 Q : outcome B -> list event -> Prop) m f :
  traced Q1 m -> (forall a, traced Q2 (f a)) ->
  (forall e evs, Q1 (Raised e) evs -> Q (Raised e) evs) ->
  (forall a evs1 o evs2,
     Q1 (Returned a) evs1 -> Q2 o evs2 -> Q o (evs1 ++ evs2)) ->
  traced Q (m ≫= f).
Proof.
  intros Hm Hf Hr Hs w. unfold mbind, M_bind.
  destruct (Hm w) as (evs1 & Hlog1 & H1).
  destruct (m w) as [[a|e] w1]; simpl in *.
  - destruct (Hf a w1) as (evs2 & Hlog2 & H2).
    exists (evs1 ++ evs2). rewrite Hlog2, Hlog1, app_assoc. eauto.
  - exists evs1. eauto.
Qed.

End MonadFacts.

Section EmitsFacts.

Context (P : event -> Prop).

Lemma emits_ret {A} (a : A) : emits P (mret a).
Proof. intros w. exists []. by rewrite app_nil_r. Qed.

Lemma emits_raise {A} (e : exn) : emits P (raise e : M A).
Proof. intros w. exists []. by rewrite app_nil_r. Qed.

Lemma emits_emit (ev : event) : P ev -> emits P (emit ev).
Proof. intros H w. exists [ev]. by repeat constructor. Qed.

Lemma emits_write_file path f : emits P (write_file path f).
Proof. intros w. exists []. by rewrite app_nil_r. Qed.

Lemma emits_read_file path : emits P (read_file path).
Proof. intros w. exists []. by rewrite app_nil_r. Qed.

Lemma emits_of_outcome {A} (o : outcome A) : emits P (of_outcome o).
Proof. destruct o; [apply emits_ret | apply emits_raise]. Qed.

Lemma emits_bind {A B} (m : M A) (f : A -> M B) :
  emits P m -> (forall a, emits P (f a)) -> emits P (m ≫= f).
Proof.
  intros Hm Hf.
  apply (traced_bind (λ _ evs, Forall P evs) (λ _ evs, Forall P evs));
    auto.
  intros. by apply Forall_app.
Qed.

Lemma emits_try {A} (body : M A) (handler : exn -> M A) :
  emits P body -> (forall e, emits P (handler e)) ->
  emits P (try_except body handler).
Proof.
  intros Hb Hh w. unfold try_except.
  destruct (Hb w) as (evs1 & Hlog1 & H1).
  destruct (body w) as [[a|e] w1]; simpl in *.
  - exists evs1. eauto.
  - destruct (Hh e w1) as (evs2 & Hlog2 & H2).
    exists (evs1 ++ evs2). rewrite Hlog2, Hlog1, app_assoc.
    split; [done|]. by apply Forall_app.
Qed.

End EmitsFacts.

Lemma emits_weaken {A} (P Q : event -> Prop) (m : M A) :
  (forall ev, P ev -> Q ev) -> emits P m -> emits Q m.
Proof.
  intros HPQ Hm w. destruct (Hm w) as (evs & Hlog & H).
  exists evs. split; [done|]. by eapply Forall_impl.
Qed.

Lemma new_events_app (w w' : world) (evs : list event) :
  log w' = log w ++ evs -> new_events w w' = evs.
Proof. intros H. unfold new_events. by rewrite H, drop_app_length. Qed.

Lemma emits_read_secrets (P : event -> Prop) (env : services) :
  emits P (read_secrets env).
Proof.
  unfold read_secrets.
  destruct (secrets_missing env); [apply emits_raise | apply emits_ret].
Qed.

Lemma emits_save_file (P : event -> Prop) (env : services) path f :
  emits P (save_file env path f).
Proof.
  unfold save_file.
  destruct (open_write env path); [apply emits_raise | apply emits_write_file].
Qed.

(** One step of a proof that a computation only emits events in [P]. *)
Ltac emits_step :=
  lazymatch goal with
  | |- emits _ (mbind _ _) => apply emits_bind; [|intros ?]
  | |- emits _ (read_secrets _) => apply emits_read_secrets
  | |- emits _ (save_file _ _ _) => apply emits_save_file
  | |- emits _ (mret _) => apply emits_ret
  | |- emits _ (raise _) => apply emits_raise
  | |- emits _ (emit _) => apply emits_emit
  | |- emits _ (write_file _ _) => apply emits_write_file
  | |- emits _ (read_file _) => apply emits_read_file
  | |- emits _ (of_outcome _) => apply emits_of_outcome
  | |- emits _ (try_except _ _) => apply emits_try; [|intros ?]
  | |- emits _ (match ?x with _ => _ end) => destruct x
  end.

(** ** Placeholder pictures *)

Lemma make_placeholder_image_run (env : services) (text : str)
    (dest : string) (size : positive * positive) (w : world)
    (measured : Z * Z) :
  multiline_textsize env (wrapped_caption env text) = Returned measured ->
  open_write env dest = None ->
  make_placeholder_image env text dest size w
    = (Returned (),
       World (<[dest := ImageFile
                 (Image size
                    (CaptionCard (20, 20, 20)%Z (wrapped_caption env text)
                       ((Z.pos size.1 - measured.1) `div` 2,
                        (Z.pos size.2 - measured.2) `div` 2)%Z
                       (230, 230, 230)%Z))]> (files w))
             (log w)).
Proof.
  intros Hm Ho. unfold make_placeholder_image, wrapped_caption in *.
  unfold mbind, M_bind, of_outcome, save_file. rewrite Hm. simpl.
  by rewrite Ho.
Qed.

Lemma make_placeholder_image_unmeasured (env : services) (text : str)
    (dest : string) (size : positive * positive) (w : world) (e : exn) :
  multiline_textsize env (wrapped_caption env text) = Raised e ->
  make_placeholder_image env text dest size w = (Raised e, w).
Proof.
  intros Hm. unfold make_placeholder_image, wrapped_caption in *.
  unfold mbind, M_bind, of_outcome. by rewrite Hm.
Qed.


(** C7.  [make_placeholder_image] does fail: line 102 is not guarded, so
    whenever measuring the caption raises (a character that the default
    bitmap font cannot encode, or a Pillow without [multiline_textsize])
    the call ends with that exception and no picture is written. *)
Theorem make_placeholder_image_raises (env : services) (text : str)
    (dest : string) (size : positive * positive) (w : world) (e : exn) :
  multiline_textsize env (wrapped_caption env text) = Raised e ->
  make_placeholder_image env text dest size w = (Raised e, w).
Proof. apply make_placeholder_image_unmeasured. Qed.

Lemma make_placeholder_image_raises_witness :
  make_placeholder_image (demo_services None None)
    (py "It" ++ [8217%N] ++ py "s here") "/tmp/s2v_demo/scene_0.jpg"
    default_size fresh_world
    = (Raised (Exn "UnicodeEncodeError"
                   "'latin-1' codec can't encode character"),
       fresh_world).
Proof.
  by apply (make_placeholder_image_raises (demo_services None None)).
Defined.

(** ** Encoding *)

(** Lines 134-139 on the three possible answers of the two encoders. *)
Lemma encode_with_fallback_run (env : services) (final : timeline)
    (out : string) (fps : nat) (w : world) :
  encode_with_fallback env final out fps w =
    match ffmpeg_encode env libx264 final out fps with
    | None =>
        (Returned (), World (files w) (log w ++ [Ev_encode libx264 out fps]))
    | Some _ =>
        (match ffmpeg_encode env mpeg4 final out fps with
         | None => Returned ()
         | Some e2 => Raised e2
         end,
         World (files w) (log w ++ [Ev_encode libx264 out fps;
                                    Ev_encode mpeg4 out fps]))
    end.
Proof.
  unfold encode_with_fallback, try_except, write_videofile, emit.
  unfold mbind, M_bind. simpl.
  destruct (ffmpeg_encode env libx264 final out fps); simpl; [|done].
  rewrite <- app_assoc.
  by destruct (ffmpeg_encode env mpeg4 final out fps).
Qed.

(** The run reaches the encoder with the clips of the scene loop. *)
Lemma build_video_encodes (env : services) (scenes : list str)
    (topic : str) (out : string) (fps : nat) (w w1 : world)
    (clips : list video_clip) (final : timeline) :
  build_scenes env topic (Nat.max (length scenes) 1) 0 scenes []
    (World (files w) (log w ++ [Ev_progress 0 (Nat.max (length scenes) 1)]))
    = (Returned clips, w1) ->
  concatenate_videoclips clips w1 = (Returned final, w1) ->
  build_video env scenes topic out fps w
    = encode_with_fallback env final out fps w1.
Proof.
  intros Hs Hc. unfold build_video, assemble.
  erewrite run_bind by reflexivity.
  erewrite run_bind by exact Hs.
  by erewrite run_bind by exact Hc.
Qed.

(** C6.  Once the scene loop has returned its clips and they are
    concatenated, the run asks the encoder for H.264/AAC first.  If that
    succeeds the run returns and the fallback is never invoked; if it fails,
    MPEG-4/AAC is tried exactly once; if that fails too the run ends with
    the exception of the fallback encoder. *)
Theorem build_video_codec_fallback (env : services) (scenes : list str)
    (topic : str) (out : string) (fps : nat) (w w1 : world)
    (clips : list video_clip) (final : timeline) :
  build_scenes env topic (Nat.max (length scenes) 1) 0 scenes []
    (World (files w) (log w ++ [Ev_progress 0 (Nat.max (length scenes) 1)]))
    = (Returned clips, w1) ->
  concatenate_videoclips clips w1 = (Returned final, w1) ->
  let run := build_video env scenes topic out fps w in
  let primary := Ev_encode libx264 out fps in
  let fallback := Ev_encode mpeg4 out fps in
  (ffmpeg_encode env libx264 final out fps = None ->
     run.1 = Returned () /\ new_events w1 run.2 = [primary])
  /\ (forall e1,
        ffmpeg_encode env libx264 final out fps = Some e1 ->
        ffmpeg_encode env mpeg4 final out fps = None ->
        run.1 = Returned () /\ new_events w1 run.2 = [primary; fallback])
  /\ (forall e1 e2,
        ffmpeg_encode env libx264 final out fps = Some e1 ->
        ffmpeg_encode env mpeg4 final out fps = Some e2 ->
        run.1 = Raised e2 /\ new_events w1 run.2 = [primary; fallback]).
Proof.
  intros Hs Hc run primary fallback. subst run.
  rewrite (build_video_encodes env scenes topic out fps w w1 clips final Hs Hc).
  rewrite encode_with_fallback_run.
  split; [|split].
  - intros ->. simpl. split; [done|]. by apply new_events_app.
  - intros e1 -> ->. simpl. split; [done|]. by apply new_events_app.
  - intros e1 e2 -> ->. simpl. split; [done|]. by apply new_events_app.
Qed.

Lemma demo_scene_loop (x264 mp4 : option exn) :
  exists clips w1 final,
    build_scenes (demo_services x264 mp4) [] 2 0 [py "one"; py "two"] []
      (World ∅ [Ev_progress 0 2]) = (Returned clips, w1)
    /\ concatenate_videoclips clips w1 = (Returned final, w1).
Proof.
  eexists _, _, _. split; vm_compute; reflexivity.
Defined.

Lemma build_video_codec_fallback_witness :
  let scenes := [py "one"; py "two"] in
  let out := "/tmp/script2video_output.mp4" in
  let e1 := encoder_error libx264 in
  let e2 := encoder_error mpeg4 in
  let run x264 mp4 :=
    build_video (demo_services x264 mp4) scenes [] out 24 fresh_world in
  (exists w1, (run None None).1 = Returned ()
              /\ new_events w1 (run None None).2
                 = [Ev_encode libx264 out 24])
  /\ (exists w1, (run (Some e1) None).1 = Returned ()
                 /\ new_events w1 (run (Some e1) None).2
                    = [Ev_encode libx264 out 24; Ev_encode mpeg4 out 24])
  /\ (exists w1, (run (Some e1) (Some e2)).1 = Raised e2
                 /\ new_events w1 (run (Some e1) (Some e2)).2
                    = [Ev_encode libx264 out 24; Ev_encode mpeg4 out 24]).
Proof.
  intros scenes out e1 e2 run.
  split; [|split].
  - destruct (demo_scene_loop None None) as (clips & w1 & final & Hs & Hc).
    exists w1.
    apply (build_video_codec_fallback (demo_services None None) scenes []
             out 24 fresh_world w1 clips final Hs Hc).
    reflexivity.
  - destruct (demo_scene_loop (Some e1) None)
      as (clips & w1 & final & Hs & Hc).
    exists w1.
    apply (proj1 (proj2 (build_video_codec_fallback
                           (demo_services (Some e1) None) scenes [] out 24
                           fresh_world w1 clips final Hs Hc)) e1);
      reflexivity.
  - destruct (demo_scene_loop (Some e1) (Some e2))
      as (clips & w1 & final & Hs & Hc).
    exists w1.
    apply (proj2 (proj2 (build_video_codec_fallback
                           (demo_services (Some e1) (Some e2)) scenes [] out
                           24 fresh_world w1 clips final Hs Hc)) e1 e2);
      reflexivity.
Defined.

(** ** Duration floor *)

Section ClipFacts.

Variable env : services.

Lemma build_scene_returns_scene_clip topic total i scene :
  returns (λ c, exists im audio, c = scene_clip im audio)
          (build_scene env topic total i scene).
Proof.
  unfold build_scene.
  repeat (eapply returns_bind; [apply returns_any | intros ? _]).
  apply returns_ret. eauto.
Qed.

Lemma build_scenes_long_enough topic total scenes :
  forall i acc,
    Forall long_enough acc ->
    returns (Forall long_enough)
            (build_scenes env topic total i scenes acc).
Proof.
  induction scenes as [|scene scenes IH]; intros i acc Hacc; simpl.
  - by apply returns_ret.
  - eapply returns_bind; [apply build_scene_returns_scene_clip|].
    intros ic (im & audio & ->). apply IH.
    apply Forall_app. split; [done|].
    repeat constructor. apply scene_clip_long_enough.
Qed.

End ClipFacts.

(** C10.  Every clip built for a scene lasts at least 0.1 s: the duration
    of the narration is raised to 0.1 s when it is below it, and every clip
    that the scene loop of a run returns has a duration of at least
    0.1 s. *)
Theorem scene_clips_last_a_tenth (env : services) :
  (forall im audio,
     long_enough (scene_clip im audio)
     /\ ((audio_duration audio < min_duration)%Q ->
           clip_duration (scene_clip im audio) = Some min_duration))
  /\ (forall topic total scenes w clips w',
        build_scenes env topic total 0 scenes [] w = (Returned clips, w') ->
        Forall long_enough clips).
Proof.
  split.
  - intros im audio. split; [apply scene_clip_long_enough|].
    intros H. simpl. by rewrite py_max_lt.
  - intros topic total scenes w clips w' H.
    by eapply (build_scenes_long_enough env topic total scenes 0 []).
Qed.

Lemma scene_clips_last_a_tenth_witness :
  clip_duration (scene_clip (Image (400, 300)%positive Photo)
                            (AudioClip "scene_0.mp3" (1 # 20)))
    = Some (1 # 10)
  /\ exists clips w',
       build_scenes (demo_services None None) [] 2 0 [py "one"; py "two"] []
         fresh_world = (Returned clips, w')
       /\ length clips = 2
       /\ Forall long_enough clips.
Proof.
  pose proof (scene_clips_last_a_tenth (demo_services None None)) as [H1 H2].
  split.
  - apply H1. reflexivity.
  - eexists _, _. split; [vm_compute; reflexivity|]. split; [reflexivity|].
    eapply (H2 [] 2 [py "one"; py "two"] fresh_world).
    vm_compute. reflexivity.
Defined.

(** ** Narration failures *)

Section NarrationFacts.

Variable env : services.

Lemma narrating_of_emits {A} (m : M A) :
  emits (narrated env) m -> narrating env m.
Proof.
  intros Hm w. destruct (Hm w) as (evs & Hlog & H).
  exists evs. split; [done|]. by left.
Qed.

Lemma narrating_bind {A B} (m : M A) (f : A -> M B) :
  narrating env m -> (forall a, narrating env (f a)) ->
  narrating env (m ≫= f).
Proof.
  intros Hm Hf.
  apply (traced_bind (narration_post env) (narration_post env)); auto.
  - intros e evs [H|(evs0 & text & path & e' & -> & H0 & Hg & He)].
    + by left.
    + right. exists evs0, text, path, e'. injection He as ->. eauto.
  - intros a evs1 o evs2 [H1|(? & ? & ? & ? & _ & _ & _ & He)]; [|done].
    intros [H2|(evs0 & text & path & e' & -> & H0 & Hg & He)].
    + left. by apply Forall_app.
    + right. exists (evs1 ++ evs0), text, path, e'.
      rewrite app_assoc. split; [done|]. split; [by apply Forall_app|].
      eauto.
Qed.

Lemma synthesize_narrating scene path :
  narrating env (synthesize env scene path).
Proof.
  intros w. unfold synthesize, mbind, M_bind, emit, of_outcome. simpl.
  destruct (gtts_save env scene path) as [d|e] eqn:E; simpl.
  - exists [Ev_tts scene path]. split; [done|]. left.
    repeat constructor. simpl. eauto.
  - exists [Ev_tts scene path]. split; [done|]. right.
    exists [], scene, path, e. repeat split; auto.
Qed.

Lemma fetch_image_emits (P : event -> Prop) query dest :
  (forall k q, P (Ev_search k q)) -> (forall u, P (Ev_download u)) ->
  (forall q e, P (Ev_warning q e)) ->
  emits P (fetch_image_from_pexels env query dest).
Proof.
  intros Hs Hd Hw. unfold fetch_image_from_pexels.
  repeat emits_step; auto.
Qed.

Lemma placeholder_emits (P : event -> Prop) text dest size :
  emits P (make_placeholder_image env text dest size).
Proof.
  unfold make_placeholder_image. repeat emits_step.
Qed.

Lemma build_scene_narrating topic total i scene :
  narrating env (build_scene env topic total i scene).
Proof.
  unfold build_scene.
  apply narrating_bind; [apply synthesize_narrating|]. intros _.
  apply narrating_of_emits. unfold AudioFileClip, ImageClip.
  repeat first [ apply fetch_image_emits; done
               | apply placeholder_emits
               | emits_step ]; done.
Qed.

Lemma build_scenes_narrating topic total scenes :
  forall i acc, narrating env (build_scenes env topic total i scenes acc).
Proof.
  induction scenes as [|scene scenes IH]; intros i acc; simpl.
  - apply narrating_of_emits, emits_ret.
  - apply narrating_bind; [apply build_scene_narrating|].
    intros ic. apply IH.
Qed.

Lemma assemble_emits_encode clips out fps :
  emits is_encode (assemble env clips out fps).
Proof.
  unfold assemble, concatenate_videoclips, encode_with_fallback,
    write_videofile.
  repeat emits_step; done.
Qed.

(** The shape of the log of a run: the events up to the end of the scene
    loop followed by the encodings, or a log that ends with the narration
    request that failed. *)
Lemma build_video_trace scenes topic out fps :
  traced (λ o evs,
            (exists evs1 evs2, evs = evs1 ++ evs2
                               /\ Forall (narrated env) evs1
                               /\ Forall is_encode evs2)
            \/ exists evs0 text path e,
                 evs = evs0 ++ [Ev_tts text path]
                 /\ Forall (narrated env) evs0
                 /\ gtts_save env text path = Raised e
                 /\ o = Raised e)
         (build_video env scenes topic out fps).
Proof.
  intros w. set (total := Nat.max (length scenes) 1).
  set (w0 := World (files w) (log w ++ [Ev_progress 0 total])).
  destruct (build_scenes_narrating topic total scenes 0 [] w0)
    as (evs1 & Hlog1 & H1).
  assert (Hrun : build_video env scenes topic out fps w
                 = (build_scenes env topic total 0 scenes []
                      ≫= λ clips, assemble env clips out fps) w0)
    by reflexivity.
  destruct (build_scenes env topic total 0 scenes [] w0)
    as [[clips|e] w1] eqn:E; simpl in *.
  - destruct (assemble_emits_encode clips out fps w1)
      as (evs2 & Hlog2 & H2).
    rewrite (run_bind _ _ _ _ _ E) in Hrun. rewrite Hrun.
    exists ([Ev_progress 0 total] ++ evs1 ++ evs2).
    split; [by rewrite Hlog2, Hlog1, <- !app_assoc|].
    destruct H1 as [H1|(? & ? & ? & ? & _ & _ & _ & He)]; [|done].
    left. exists ([Ev_progress 0 total] ++ evs1), evs2.
    split; [by rewrite <- app_assoc|]. split; [|done].
    apply Forall_app. split; [by repeat constructor | done].
  - rewrite (run_bind_raised _ _ _ _ _ E) in Hrun. rewrite Hrun. simpl.
    exists ([Ev_progress 0 total] ++ evs1).
    split; [by rewrite Hlog1, <- !app_assoc|].
    destruct H1 as [H1|(evs0 & text & path & e' & -> & H0 & Hg & He)].
    + left. exists ([Ev_progress 0 total] ++ evs1), [].
      rewrite app_nil_r. split; [done|]. split; [|constructor].
      apply Forall_app. split; [by repeat constructor | done].
    + right. exists ([Ev_progress 0 total] ++ evs0), text, path, e'.
      injection He as ->.
      split; [by rewrite <- app_assoc|].
      split; [|by split].
      apply Forall_app. split; [by repeat constructor | done].
Qed.

Lemma narrated_not_failed text path e evs :
  Forall (narrated env) evs -> gtts_save env text path = Raised e ->
  Ev_tts text path ∉ evs.
Proof.
  intros Hall Hg Hin. rewrite Forall_forall in Hall.
  apply Hall in Hin as [d Hd]. congruence.
Qed.

Lemma narrated_not_encode evs ev :
  Forall (narrated env) evs -> ev ∈ evs -> ~ is_encode ev.
Proof.
  intros Hall Hin. rewrite Forall_forall in Hall.
  apply Hall in Hin. destruct ev; simpl in *; tauto.
Qed.

End NarrationFacts.

(** C3, as stated, fails: the same connection error is reported whether
    the narration of scene 0 or that of scene 1 fails, so no reading of the
    reported error gives the index of the failing scene. *)
Lemma narration_error_has_no_index :
  ~ exists index_of : exn -> nat, names_failing_scene index_of.
Proof.
  intros [index_of H].
  pose (env := demo_services None None).
  destruct (H env [py "fail"] [] "/tmp/out.mp4" 24 fresh_world 0 (py "fail")
              connection_error) as (e0 & He0 & Hi0);
    [reflexivity | vm_compute; apply list_elem_of_In; simpl; tauto
    | reflexivity |].
  destruct (H env [py "one"; py "fail"] [] "/tmp/out.mp4" 24 fresh_world 1
              (py "fail") connection_error) as (e1 & He1 & Hi1);
    [reflexivity | vm_compute; apply list_elem_of_In; simpl; tauto
    | reflexivity |].
  vm_compute in He0, He1.
  injection He0 as <-. injection He1 as <-. congruence.
Qed.

(** C3, amended.  Whenever a narration request of a run fails, the run ends
    with the exception of that request, unchanged; the failed request is
    the last event of the run, so nothing is retried, and the encoder is
    never invoked, so no output file is written. *)
Theorem narration_failure_aborts (env : services) (scenes : list str)
    (topic : str) (out : string) (fps : nat) (w : world)
    (text : str) (path : string) (e : exn) :
  let run := build_video env scenes topic out fps w in
  Ev_tts text path ∈ new_events w run.2 ->
  gtts_save env text path = Raised e ->
  run.1 = Raised e
  /\ (exists before, new_events w run.2 = before ++ [Ev_tts text path]
                     /\ Ev_tts text path ∉ before)
  /\ Forall (λ ev, ~ is_encode ev) (new_events w run.2).
Proof.
  intros run Hin Hg. subst run.
  destruct (build_video_trace env scenes topic out fps w)
    as (evs & Hlog & Hpost).
  rewrite (new_events_app _ _ _ Hlog) in *.
  destruct Hpost as [(evs1 & evs2 & -> & H1 & H2)
                    |(evs0 & text' & path' & e' & -> & H0 & Hg' & He)].
  - exfalso. apply elem_of_app in Hin as [Hin|Hin].
    + exact (narrated_not_failed env text path e evs1 H1 Hg Hin).
    + rewrite Forall_forall in H2. by apply H2 in Hin.
  - apply elem_of_app in Hin as [Hin|Hin];
      [destruct (narrated_not_failed env text path e evs0 H0 Hg Hin)|].
    apply list_elem_of_singleton in Hin. injection Hin as <- <-.
    assert (e' = e) as -> by congruence.
    split; [exact He|]. split.
    + exists evs0. split; [done|].
      exact (narrated_not_failed env text path e evs0 H0 Hg).
    + apply Forall_app. split.
      * apply Forall_forall. intros ev Hev.
        exact (narrated_not_encode env evs0 ev H0 Hev).
      * constructor; [by intros []|constructor].
Qed.

Lemma narration_failure_aborts_witness :
  let run := build_video (demo_services None None) [py "one"; py "fail"] []
               "/tmp/out.mp4" 24 fresh_world in
  run.1 = Raised connection_error
  /\ (exists before,
        new_events fresh_world run.2
          = before ++ [Ev_tts (py "fail") "/tmp/s2v_demo/scene_1.mp3"]
        /\ Ev_tts (py "fail") "/tmp/s2v_demo/scene_1.mp3" ∉ before)
  /\ Forall (λ ev, ~ is_encode ev) (new_events fresh_world run.2).
Proof.
  apply (narration_failure_aborts (demo_services None None)
           [py "one"; py "fail"] [] "/tmp/out.mp4" 24 fresh_world
           (py "fail") "/tmp/s2v_demo/scene_1.mp3" connection_error).
  - vm_compute. apply list_elem_of_In. simpl. tauto.
  - reflexivity.
Defined.

(** ** Runs without credential *)

Section Unconfigured.

Variable env : services.
Hypothesis no_key : unconfigured env.

Lemma fetch_unconfigured query dest w :
  fetch_image_from_pexels env query dest w = (Returned false, w).
Proof.
  destruct no_key as [Hfile Hkey].
  unfold fetch_image_from_pexels, read_secrets. rewrite Hfile.
  unfold mbind, M_bind. simpl. by rewrite Hkey.
Qed.

Lemma fetch_unconfigured_emits (P : event -> Prop) query dest :
  emits P (fetch_image_from_pexels env query dest).
Proof.
  intros w. exists []. rewrite fetch_unconfigured. simpl.
  by rewrite app_nil_r.
Qed.

Lemma synthesize_run scene path d w :
  gtts_save env scene path = Returned d ->
  synthesize env scene path w
    = (Returned (), World (<[path := AudioFile d]> (files w))
                          (log w ++ [Ev_tts scene path])).
Proof.
  intros H. unfold synthesize, mbind, M_bind, emit. simpl.
  by rewrite H.
Qed.

Lemma AudioFileClip_run path d w :
  files w !! path = Some (AudioFile d) ->
  AudioFileClip path w = (Returned (AudioClip path d), w).
Proof.
  intros H. unfold AudioFileClip, mbind, M_bind, read_file. by rewrite H.
Qed.

Lemma ImageClip_run path im w :
  files w !! path = Some (ImageFile im) ->
  ImageClip path w = (Returned im, w).
Proof.
  intros H. unfold ImageClip, mbind, M_bind, read_file. by rewrite H.
Qed.

(** With no usable key, a narration that succeeds and a placeholder that can
    be drawn, the scene is built from the placeholder. *)
Lemma build_scene_placeholder topic total i scene d w :
  gtts_save env scene (scene_path env i ".mp3") = Returned d ->
  placeholder_ok env i scene ->
  exists c w',
    build_scene env topic total i scene w = (Returned c, w')
    /\ shows_placeholder c.
Proof.
  intros Hg [[measured Hm] Ho]. unfold build_scene.
  erewrite run_bind by (by apply synthesize_run).
  erewrite run_bind by (apply AudioFileClip_run; apply lookup_insert_eq).
  erewrite run_bind by apply fetch_unconfigured.
  erewrite run_bind by (by apply make_placeholder_image_run).
  erewrite run_bind by (apply ImageClip_run; apply lookup_insert_eq).
  erewrite run_bind by reflexivity.
  eexists _, _. split; reflexivity.
Qed.

Lemma build_scenes_placeholders topic total scenes :
  forall i acc w,
    (forall j scene, scenes !! j = Some scene ->
       (exists d, gtts_save env scene (scene_path env (i + j) ".mp3")
                  = Returned d)
       /\ placeholder_ok env (i + j) scene) ->
    exists new w',
      build_scenes env topic total i scenes acc w
        = (Returned (acc ++ new), w')
      /\ length new = length scenes
      /\ Forall shows_placeholder new.
Proof.
  induction scenes as [|scene scenes IH]; intros i acc w Hall; simpl.
  - exists [], w. by rewrite app_nil_r.
  - destruct (Hall 0 scene eq_refl) as [[d Hd] Hp].
    rewrite Nat.add_0_r in Hd, Hp.
    destruct (build_scene_placeholder topic total i scene d w Hd Hp)
      as (c & w1 & Hc & Hph).
    erewrite run_bind by exact Hc.
    destruct (IH (S i) (acc ++ [c]) w1) as (new & w' & Hrun & Hlen & Hnew).
    { intros j s Hj. destruct (Hall (S j) s Hj) as [[d' Hd'] Hp'].
      replace (S i + j) with (i + S j) by lia. eauto. }
    exists (c :: new), w'. rewrite Hrun, <- app_assoc. simpl.
    split; [done|]. split; [by rewrite Hlen|]. by constructor.
Qed.

Lemma build_scenes_no_image_request topic total scenes :
  forall i acc,
    emits (λ ev, ~ is_image_request ev)
          (build_scenes env topic total i scenes acc).
Proof.
  induction scenes as [|scene rest IH]; intros i acc; simpl.
  - apply emits_ret.
  - apply emits_bind; [|intros ?; apply IH].
    unfold build_scene, synthesize, AudioFileClip, ImageClip.
    repeat first [ apply fetch_unconfigured_emits
                 | apply placeholder_emits
                 | emits_step ]; by intros [].
Qed.

Lemma build_video_no_image_request scenes topic out fps :
  emits (λ ev, ~ is_image_request ev)
        (build_video env scenes topic out fps).
Proof.
  unfold build_video. apply emits_bind; [by apply emits_emit; intros []|].
  intros _. apply emits_bind; [apply build_scenes_no_image_request|].
  intros clips.
  apply (emits_weaken is_encode);
    [intros ev; destruct ev; simpl; tauto|].
  apply assemble_emits_encode.
Qed.

End Unconfigured.

(** C8.  Without secrets file no fetch returns not-found: the read of line
    73 is outside the [try], so [fetch_image_from_pexels] ends with the
    exception of that read, before the key test of line 74. *)
Theorem fetch_without_secrets_file_raises (env : services) (query : str)
    (dest : string) (w : world) (e : exn) :
  secrets_missing env = Some e ->
  fetch_image_from_pexels env query dest w = (Raised e, w).
Proof.
  intros H. unfold fetch_image_from_pexels, read_secrets. rewrite H.
  reflexivity.
Qed.

Lemma fetch_without_secrets_file_raises_witness :
  fetch_image_from_pexels bare_services (py "Hello world")
    "/tmp/s2v_bare/scene_0.jpg" fresh_world
    = (Raised no_secrets_file, fresh_world).
Proof.
  by apply (fetch_without_secrets_file_raises bare_services).
Defined.

(** * Further properties of the code *)

(** ** Runs whose secrets hold no usable key *)

(** X17.  When the secrets can be read and hold no usable key (absent or
    empty), every image fetch returns not-found and leaves files and log as
    they were; a run makes no request to the image provider; and when, for
    each of the N scenes, the narration succeeds and the placeholder can be
    measured and written, the scene loop returns N clips, each showing a
    placeholder card on the 1280x720 canvas. *)
Theorem keyless_run_uses_placeholders (env : services) :
  unconfigured env ->
  (forall query dest w,
     fetch_image_from_pexels env query dest w = (Returned false, w))
  /\ (forall scenes topic out fps w,
        Forall (λ ev, ~ is_image_request ev)
               (new_events w (build_video env scenes topic out fps w).2))
  /\ (forall scenes topic total w,
        (forall i scene, scenes !! i = Some scene ->
           (exists d, gtts_save env scene (scene_path env i ".mp3")
                      = Returned d)
           /\ placeholder_ok env i scene) ->
        exists clips w',
          build_scenes env topic total 0 scenes [] w = (Returned clips, w')
          /\ length clips = length scenes
          /\ Forall shows_placeholder clips).
Proof.
  intros Hno. split; [|split].
  - intros. by apply fetch_unconfigured.
  - intros scenes topic out fps w.
    destruct (build_video_no_image_request env Hno scenes topic out fps w)
      as (evs & Hlog & H).
    by rewrite (new_events_app _ _ _ Hlog).
  - intros scenes topic total w Hall.
    destruct (build_scenes_placeholders env Hno topic total scenes 0 [] w Hall)
      as (new & w' & H1 & H2 & H3).
    by exists new, w'.
Qed.

Lemma keyless_run_uses_placeholders_witness :
  let env := demo_services None None in
  let scenes := [py "Hello world. This is scene one.";
                 py "This is scene two."] in
  fetch_image_from_pexels env (py "Hello world This is scene one")
    "/tmp/s2v_demo/scene_0.jpg" fresh_world = (Returned false, fresh_world)
  /\ Forall (λ ev, ~ is_image_request ev)
       (new_events fresh_world
          (build_video env scenes [] "/tmp/out.mp4" 24 fresh_world).2)
  /\ exists clips w',
       build_scenes env [] 2 0 scenes [] fresh_world = (Returned clips, w')
       /\ length clips = 2
       /\ Forall shows_placeholder clips.
Proof.
  intros env scenes.
  assert (Hno : unconfigured env) by (split; reflexivity).
  destruct (keyless_run_uses_placeholders env Hno) as (H1 & H2 & H3).
  split; [apply H1|]. split; [apply H2|].
  apply (H3 scenes [] 2 fresh_world).
  intros [|[|i]] scene Hi; simpl in Hi; try done;
    injection Hi as <-;
    (split; [by exists (42 # 10)%Q|]);
    (split; [eexists; vm_compute; reflexivity | reflexivity]).
Defined.

(** ** Segmentation keeps the text *)

Section KeepFacts.

Implicit Types (s t cur sep : str) (l : list str) (c : N).

Lemma non_space_chars_app s t :
  non_space_chars (s ++ t) = non_space_chars s ++ non_space_chars t.
Proof. apply List.filter_app. Qed.

Lemma non_space_chars_all_space s : all_space s -> non_space_chars s = [].
Proof.
  induction 1 as [|c s Hc _ IH]; [done|]. simpl. by rewrite Hc.
Qed.

Lemma non_space_chars_lstrip s : non_space_chars (lstrip s) = non_space_chars s.
Proof.
  induction s as [|c s IH]; [done|]. simpl.
  destruct (isspace c) eqn:E; simpl; [exact IH|]. by rewrite E.
Qed.

Lemma non_space_chars_strip s : non_space_chars (strip s) = non_space_chars s.
Proof.
  unfold strip, rstrip, non_space_chars.
  rewrite List.filter_rev. fold (non_space_chars (lstrip (rev (lstrip s)))).
  rewrite non_space_chars_lstrip. unfold non_space_chars.
  rewrite List.filter_rev, rev_involutive.
  apply non_space_chars_lstrip.
Qed.

Lemma non_space_chars_join sep l :
  all_space sep ->
  non_space_chars (str_join sep l) = non_space_chars (concat l).
Proof.
  intros Hsep. induction l as [|x l IH]; [done|].
  destruct l as [|y l].
  - simpl. by rewrite app_nil_r.
  - change (str_join sep (x :: y :: l))
      with (x ++ sep ++ str_join sep (y :: l)).
    change (concat (x :: y :: l)) with (x ++ concat (y :: l)).
    rewrite !non_space_chars_app, IH.
    by rewrite (non_space_chars_all_space sep Hsep).
Qed.

Lemma non_space_chars_stripped_nonempty l :
  non_space_chars (concat (stripped_nonempty l)) = non_space_chars (concat l).
Proof.
  unfold stripped_nonempty. induction l as [|x l IH]; [done|].
  rewrite fmap_cons, filter_cons. simpl concat at 2.
  rewrite non_space_chars_app, <- IH, <- (non_space_chars_strip x).
  destruct (decide (strip x ≠ [])) as [|E].
  - simpl. by rewrite non_space_chars_app.
  - destruct (strip x); [done | by destruct E].
Qed.

Lemma non_space_chars_re_split s :
  forall after_term in_gap cur,
    non_space_chars (concat (re_split_go after_term in_gap cur s))
      = non_space_chars (rev cur ++ s).
Proof.
  induction s as [|c s IH]; intros after_term in_gap cur.
  - simpl. by rewrite !app_nil_r.
  - simpl. destruct (isspace c) eqn:E.
    + assert (Hdrop : non_space_chars (rev cur ++ c :: s)
                      = non_space_chars (rev cur ++ s)).
      { rewrite !non_space_chars_app. simpl. by rewrite E. }
      destruct in_gap; [by rewrite IH|].
      destruct after_term.
      * simpl. rewrite non_space_chars_app, IH, Hdrop. simpl.
        by rewrite non_space_chars_app.
      * rewrite IH. simpl. by rewrite <- app_assoc.
    + rewrite IH. simpl. by rewrite <- app_assoc.
Qed.

Lemma group_sentences_nil : group_sentences [] = [].
Proof. reflexivity. Qed.

Lemma non_space_chars_group l :
  non_space_chars (concat (group_sentences l)) = non_space_chars (concat l).
Proof.
  destruct l as [|x l]; [done|].
  destruct (group_sentences_chunks (x :: l)) as (full & last & H1 & H2 & _);
    [done|].
  rewrite H1, <- H2. generalize (full ++ [last]). clear.
  intros chunks. induction chunks as [|ch chunks IH]; [done|].
  rewrite fmap_cons. simpl concat.
  rewrite concat_app, !non_space_chars_app, IH.
  f_equal. apply non_space_chars_join. by repeat constructor.
Qed.

End KeepFacts.

(** X1.  Segmentation neither loses nor reorders text: the non-whitespace
    characters of the scenes, read in order, are those of the script. *)
Theorem split_into_scenes_keeps_text (script : str) :
  non_space_chars (concat (split_into_scenes script))
    = non_space_chars script.
Proof.
  unfold split_into_scenes.
  set (t := strip script).
  assert (Ht : non_space_chars t = non_space_chars script)
    by apply non_space_chars_strip.
  assert (Hsent :
    non_space_chars
      (concat match group_sentences (sentences_of t) with
              | [] => [t]
              | scenes => scenes
              end) = non_space_chars script).
  { destruct (group_sentences (sentences_of t)) as [|sc scs] eqn:E.
    - simpl. by rewrite app_nil_r.
    - rewrite <- E, non_space_chars_group. unfold sentences_of.
      rewrite non_space_chars_stripped_nonempty.
      unfold re_split_sentences. by rewrite non_space_chars_re_split. }
  destruct (str_contains blank_line t) eqn:Hc; [|exact Hsent].
  destruct (stripped_nonempty (str_split blank_line t)) as [|p ps] eqn:E;
    [exact Hsent|].
  rewrite <- E, non_space_chars_stripped_nonempty.
  rewrite <- (non_space_chars_join blank_line) by apply blank_line_all_space.
  by rewrite str_split_join.
Qed.

(** ** Scenes are trimmed and, for a non-blank script, not empty *)

Section TrimFacts.

Implicit Types (s u v a sep : str) (l : list str) (c : N).

Lemma lstrip_clean s : clean_start s -> lstrip s = s.
Proof. destruct s as [|c s]; [done|]. simpl. by intros ->. Qed.

Lemma clean_start_suffix_rev u a v :
  clean_start u -> rev u = a ++ v -> clean_start (rev v).
Proof.
  intros Hu E. apply (f_equal (@rev N)) in E.
  rewrite rev_involutive, rev_app_distr in E. subst u.
  by destruct (rev v).
Qed.

Lemma strip_edges s : clean_start (strip s) /\ clean_start (rev (strip s)).
Proof.
  unfold strip, rstrip. rewrite rev_involutive.
  split; [|apply lstrip_head].
  destruct (lstrip_suffix (rev (lstrip s))) as [a Ha].
  exact (clean_start_suffix_rev _ _ _ (lstrip_head s) Ha).
Qed.

Lemma trimmed_of_edges s : clean_start s -> clean_start (rev s) -> trimmed s.
Proof.
  intros H1 H2. unfold trimmed, strip, rstrip.
  by rewrite (lstrip_clean s H1), (lstrip_clean _ H2), rev_involutive.
Qed.

Lemma strip_trimmed s : trimmed (strip s).
Proof. apply trimmed_of_edges; apply strip_edges. Qed.

Lemma solid_strip s : strip s <> [] -> solid (strip s).
Proof. intros H. split; [done|]. apply strip_edges. Qed.

Lemma solid_join sep l : l <> [] -> Forall solid l -> solid (str_join sep l).
Proof.
  intros Hne Hall. induction Hall as [|x l (Hx & Hs & He) Hl IH]; [done|].
  destruct l as [|y l]; [done|].
  destruct (IH ltac:(done)) as (Jne & Js & Je).
  change (str_join sep (x :: y :: l))
    with (x ++ sep ++ str_join sep (y :: l)).
  split; [by destruct x|]. split; [by destruct x|].
  rewrite !rev_app_distr.
  destruct (rev (str_join sep (y :: l))) as [|c r] eqn:E; [|exact Je].
  apply (f_equal (@rev N)) in E. rewrite rev_involutive in E. done.
Qed.

Lemma solid_stripped_nonempty l : Forall solid (stripped_nonempty l).
Proof.
  eapply Forall_impl; [apply stripped_nonempty_spec|].
  intros p (Hne & x & _ & ->). by apply solid_strip.
Qed.

Lemma solid_group l : Forall solid l -> Forall solid (group_sentences l).
Proof.
  intros Hall. destruct l as [|x l]; [constructor|].
  destruct (group_sentences_chunks (x :: l))
    as (full & last & H1 & H2 & H3 & H4); [done|].
  rewrite H1. apply Forall_fmap, Forall_forall. intros chunk Hin. simpl.
  apply solid_join.
  - apply elem_of_app in Hin as [Hin|Hin].
    + rewrite Forall_forall in H3. apply H3 in Hin. by destruct chunk.
    + apply list_elem_of_singleton in Hin as ->.
      destruct last; simpl in *; [lia|done].
  - apply Forall_forall. intros y Hy.
    rewrite Forall_forall in Hall. apply Hall. rewrite <- H2.
    apply list_elem_of_In, in_concat.
    exists chunk. split; by apply list_elem_of_In.
Qed.

Lemma split_into_scenes_solid script :
  strip script <> [] -> Forall solid (split_into_scenes script).
Proof.
  intros Hne. unfold split_into_scenes.
  assert (Hsent :
    Forall solid match group_sentences (sentences_of (strip script)) with
                 | [] => [strip script]
                 | scenes => scenes
                 end).
  { pose proof (solid_group _ (solid_stripped_nonempty
                                 (re_split_sentences (strip script)))) as H.
    fold (sentences_of (strip script)) in H.
    destruct (group_sentences (sentences_of (strip script))); [|exact H].
    repeat constructor; [done | apply strip_edges | apply strip_edges]. }
  destruct (str_contains blank_line (strip script)); [|exact Hsent].
  pose proof (solid_stripped_nonempty (str_split blank_line (strip script)))
    as H.
  by destruct (stripped_nonempty (str_split blank_line (strip script))).
Qed.

Lemma solid_trimmed s : solid s -> s <> [] /\ trimmed s.
Proof. intros (H1 & H2 & H3). split; [done|]. by apply trimmed_of_edges. Qed.

End TrimFacts.

(** X2.  [split_into_scenes] always returns at least one scene.  When the
    trimmed script is not empty (the guard of line 157), no scene is empty
    and every scene is trimmed: it neither starts nor ends with
    whitespace. *)
Theorem split_into_scenes_scenes_clean (script : str) :
  split_into_scenes script <> []
  /\ (strip script <> [] ->
        Forall (λ scene : str, scene <> [] /\ trimmed scene)
               (split_into_scenes script)).
Proof.
  split.
  - unfold split_into_scenes.
    destruct (str_contains blank_line (strip script)).
    + destruct (stripped_nonempty (str_split blank_line (strip script)));
        [by destruct (group_sentences _) | done].
    + by destruct (group_sentences _).
  - intros Hne. eapply Forall_impl; [by apply split_into_scenes_solid|].
    intros scene H. by apply solid_trimmed.
Qed.

Lemma split_into_scenes_scenes_clean_witness :
  split_into_scenes (py " no full stop here ") = [py "no full stop here"]
  /\ Forall (λ scene : str, scene <> [] /\ trimmed scene)
            (split_into_scenes (py " no full stop here ")).
Proof.
  split; [reflexivity|].
  apply (split_into_scenes_scenes_clean (py " no full stop here ")).
  by vm_compute.
Defined.

(** ** The number of scenes *)

Lemma length_concat_threes {A} (full : list (list A)) :
  Forall (λ c, length c = 3) full -> length (concat full) = 3 * length full.
Proof.
  induction 1 as [|c full Hc _ IH]; [done|].
  simpl. rewrite length_app, IH, Hc. lia.
Qed.

Lemma group_sentences_length (sentences : list str) :
  length (group_sentences sentences) = (length sentences + 2) / 3.
Proof.
  destruct sentences as [|x l]; [done|].
  destruct (group_sentences_chunks (x :: l))
    as (full & last & H1 & H2 & H3 & H4); [done|].
  rewrite H1, length_fmap, <- H2, concat_app, !length_app.
  rewrite (length_concat_threes full H3).
  change (concat [last]) with (last ++ []). rewrite app_nil_r.
  change (length [last]) with 1.
  apply (Nat.div_unique _ 3 _ (length last - 1)); lia.
Qed.

(** X3.  Without blank-line separator in the trimmed script, the number of
    scenes is the number of sentences divided by 3, rounded up, and 1 when
    the script has no sentence. *)
Theorem split_into_scenes_count (script : str) :
  str_contains blank_line (strip script) = false ->
  length (split_into_scenes script)
    = Nat.max 1 ((length (sentences_of (strip script)) + 2) / 3).
Proof.
  intros Hc. unfold split_into_scenes. rewrite Hc.
  rewrite <- group_sentences_length.
  destruct (group_sentences (sentences_of (strip script))); simpl; lia.
Qed.

Lemma split_into_scenes_count_witness :
  length (sentences_of (strip (py "One. Two! Three? Four. Five. Six. Seven")))
    = 7
  /\ length (split_into_scenes
               (py "One. Two! Three? Four. Five. Six. Seven")) = 3.
Proof.
  split; [reflexivity|].
  by rewrite split_into_scenes_count.
Defined.

(** ** Keyword phrases are never empty and are made of plain words *)

Section KeywordFacts.

Implicit Types (s cur : str) (c : N) (P : N -> Prop).

Lemma words_go_chars P cur s :
  Forall P cur -> Forall P s -> Forall (Forall P) (words_go cur s).
Proof.
  intros Hcur Hs. revert cur Hcur.
  induction Hs as [|c s Hc Hs IH]; intros cur Hcur; simpl.
  - destruct cur; [constructor|].
    repeat constructor. by apply Forall_rev.
  - destruct (isspace c).
    + destruct cur; [by apply IH|].
      constructor; [by apply Forall_rev | by apply IH].
    + apply IH. by constructor.
Qed.

Lemma lstrip_chars P s : Forall P s -> Forall P (lstrip s).
Proof.
  induction 1 as [|c s Hc Hs IH]; simpl; [constructor|].
  destruct (isspace c); [exact IH | by constructor].
Qed.

Lemma strip_chars P s : Forall P s -> Forall P (strip s).
Proof.
  intros H. unfold strip, rstrip.
  by apply Forall_rev, lstrip_chars, Forall_rev, lstrip_chars.
Qed.

Lemma collapse_go_chars P in_run s :
  P SP -> Forall P s -> Forall P (collapse_go in_run s).
Proof.
  intros HSP Hs. revert in_run.
  induction Hs as [|c s Hc Hs IH]; intros in_run; simpl; [constructor|].
  destruct (isspace c); [destruct in_run|]; auto.
Qed.

Lemma drop_symbols_chars text :
  Forall (λ c, is_alnum c || isspace c = true) (drop_symbols text).
Proof.
  apply Forall_forall. intros c Hc.
  apply list_elem_of_In, filter_In in Hc. tauto.
Qed.

(** The words of lines 65-67 contain letters and digits only. *)
Lemma keyword_words_alnum text :
  Forall (Forall (λ c, is_alnum c = true)) (keyword_words text).
Proof.
  unfold keyword_words.
  pose proof (str_words_are_words
                (strip (collapse_ws (drop_symbols text)))) as Hw.
  assert (Hc : Forall (Forall (λ c, is_alnum c || isspace c = true))
                      (str_words (strip (collapse_ws (drop_symbols text))))).
  { apply words_go_chars; [constructor|].
    apply strip_chars, collapse_go_chars; [done|apply drop_symbols_chars]. }
  rewrite Forall_forall in Hw, Hc. apply Forall_forall. intros w Hin.
  specialize (Hc w Hin). destruct (Hw w Hin) as [_ Hns].
  unfold no_space in Hns. rewrite Forall_forall in Hns, Hc.
  apply Forall_forall. intros c Hcin.
  specialize (Hc c Hcin). rewrite (Hns c Hcin), orb_false_r in Hc. exact Hc.
Qed.

Lemma str_join_chars P sep (l : list str) :
  Forall P sep -> Forall (Forall P) l -> Forall P (str_join sep l).
Proof.
  intros Hsep. induction 1 as [|x l Hx Hl IH]; [constructor|].
  destruct l as [|y l]; [exact Hx|].
  change (Forall P (x ++ sep ++ str_join sep (y :: l))).
  rewrite !Forall_app. auto.
Qed.

Lemma keyword_words_nonempty text :
  Forall (λ w : str, w <> []) (keyword_words text).
Proof.
  eapply Forall_impl; [apply str_words_are_words|]. by intros w [H _].
Qed.

End KeywordFacts.

Lemma safe_keyword_text_not_nil (text fallback : str) :
  safe_keyword_text text fallback <> [].
Proof.
  unfold safe_keyword_text.
  destruct ((length (keyword_words text) <? 2)
            && bool_decide (fallback ≠ [])) eqn:Hg.
  - apply andb_true_iff in Hg as [_ Hf].
    by apply bool_decide_eq_true_1 in Hf.
  - pose proof (keyword_words_nonempty text) as Hw.
    destruct (keyword_words text) as [|w ws].
    + by destruct fallback.
    + apply str_join_not_nil; [done|]. by apply Forall_take.
Qed.

(** X4.  The image query is never the empty string, whatever the scene text
    and the topic keywords are. *)
Theorem safe_keyword_text_nonempty (text fallback : str) :
  safe_keyword_text text fallback <> [].
Proof. apply safe_keyword_text_not_nil. Qed.

(** X5.  When the scene text has two words or more, the query is built from
    the scene alone: it consists of letters, digits and single spaces, and
    its words are the first six words of the scene text. *)
Theorem safe_keyword_text_phrase (text fallback : str) :
  2 <= length (keyword_words text) ->
  safe_keyword_text text fallback
    = str_join [SP] (take 6 (keyword_words text))
  /\ str_words (safe_keyword_text text fallback)
     = take 6 (keyword_words text)
  /\ Forall (λ c, is_alnum c = true \/ c = SP)
            (safe_keyword_text text fallback).
Proof.
  intros Hlen.
  assert (E : safe_keyword_text text fallback
              = str_join [SP] (take 6 (keyword_words text))).
  { unfold safe_keyword_text. apply Nat.ltb_ge in Hlen. rewrite Hlen. simpl.
    destruct (keyword_words text); [|done].
    apply Nat.ltb_ge in Hlen. simpl in Hlen. lia. }
  split; [exact E|]. rewrite E. split.
  - apply str_words_join, Forall_take. apply str_words_are_words.
  - apply str_join_chars; [by repeat constructor; right|].
    apply Forall_take.
    eapply Forall_impl; [apply keyword_words_alnum|].
    intros w Hw. eapply Forall_impl; [exact Hw|]. by left.
Qed.

Lemma safe_keyword_text_phrase_witness :
  safe_keyword_text (py "It's 9 o'clock: the rocket leaves the pad now!")
                    (py "space rockets")
    = py "Its 9 oclock the rocket leaves"
  /\ Forall (λ c, is_alnum c = true \/ c = SP)
            (safe_keyword_text
               (py "It's 9 o'clock: the rocket leaves the pad now!")
               (py "space rockets")).
Proof.
  destruct (safe_keyword_text_phrase
              (py "It's 9 o'clock: the rocket leaves the pad now!")
              (py "space rockets")) as (H1 & _ & H3);
    [vm_compute; lia|].
  split; [rewrite H1; reflexivity | exact H3].
Defined.

(** ** The image fetch *)

Lemma new_events_snoc (w : world) (fs : gmap string file) (ev : event) :
  new_events w (World fs (log w ++ [ev])) = [ev].
Proof. by apply new_events_app. Qed.

Lemma new_events_same (w : world) : new_events w w = [].
Proof. unfold new_events. by rewrite drop_all. Qed.

Lemma new_events_world (w : world) (fs : gmap string file)
    (evs : list event) :
  new_events w (World fs (log w ++ evs)) = evs.
Proof. by apply new_events_app. Qed.

(** Every way a call of [fetch_image_from_pexels] can go, by the answers
    of the surroundings. *)
Lemma fetch_image_table (env : services) (query : str) (dest : string)
    (w : world) :
  let run := fetch_image_from_pexels env query dest w in
  let key := default "" (secrets env !! "PEXELS_API_KEY") in
  let search := Ev_search key query in
  (exists e, secrets_missing env = Some e /\ run = (Raised e, w))
  \/ (secrets_missing env = None /\
      ((key = "" /\ run = (Returned false, w))
       \/ (key <> "" /\
           ((exists e,
               pexels_search env key query = Raised e
               /\ run = (Returned false,
                         World (files w)
                               (log w ++ [search; Ev_warning query e])))
            \/ (exists photos,
                  pexels_search env key query = Returned photos
                  /\ chosen_url photos = None
                  /\ run = (Returned false,
                            World (files w) (log w ++ [search])))
            \/ (exists photos url,
                  pexels_search env key query = Returned photos
                  /\ chosen_url photos = Some url
                  /\ ((exists e,
                         fetch_url env url = Raised e
                         /\ run = (Returned false,
                                   World (files w)
                                     (log w ++ [search; Ev_download url;
                                                Ev_warning query e])))
                      \/ (exists body e,
                            fetch_url env url = Returned body
                            /\ open_write env dest = Some e
                            /\ run = (Returned false,
                                      World (files w)
                                        (log w ++ [search; Ev_download url;
                                                   Ev_warning query e])))
                      \/ (exists body,
                            fetch_url env url = Returned body
                            /\ open_write env dest = None
                            /\ run = (Returned true,
                                      World (<[dest := body]> (files w))
                                        (log w ++ [search;
                                                   Ev_download url]))))))))).
Proof.
  intros run key search. subst run search key.
  unfold fetch_image_from_pexels, read_secrets.
  destruct (secrets_missing env) as [e0|]; [left; by exists e0|].
  right. split; [done|].
  unfold try_except, mbind, M_bind, emit, of_outcome, save_file, write_file,
    raise, mret, M_ret. simpl.
  remember (default "" (secrets env !! "PEXELS_API_KEY")) as key eqn:Ekey.
  destruct (bool_decide (key = "")) eqn:Hk.
  { left. apply bool_decide_eq_true_1 in Hk. by split. }
  right. apply bool_decide_eq_false_1 in Hk. split; [exact Hk|].
  destruct (pexels_search env key query) as [photos|e] eqn:Hs; simpl.
  - destruct photos as [|photo photos]; simpl.
    { right. left. by exists []. }
    destruct (first_truthy _ _ _) as [url|] eqn:Hu; simpl.
    + right. right. exists (photo :: photos), url.
      split; [done|]. split; [exact Hu|].
      destruct (fetch_url env url) as [body|e] eqn:Hd; simpl.
      * destruct (open_write env dest) as [e|] eqn:Ho; simpl.
        -- right. left. exists body, e. by rewrite <- !app_assoc.
        -- right. right. exists body. by rewrite <- !app_assoc.
      * left. exists e. by rewrite <- !app_assoc.
    + right. left. by exists (photo :: photos).
  - left. exists e. by rewrite <- !app_assoc.
Qed.

Lemma fetch_image_result (env : services) (query : str) (dest : string)
    (w : world) :
  secrets_missing env = None ->
  exists b,
    (fetch_image_from_pexels env query dest w).1 = Returned b
    /\ if b
       then exists url body,
              fetch_url env url = Returned body
              /\ files (fetch_image_from_pexels env query dest w).2
                 = <[dest := body]> (files w)
       else files (fetch_image_from_pexels env query dest w).2 = files w.
Proof.
  intros Hfile.
  destruct (fetch_image_table env query dest w)
    as [(e & He & _)|(_ & [[_ H]|(_ & [(e & _ & H)|[(ph & _ & _ & H)
         |(ph & url & _ & _ & [(e & _ & H)|[(body & e & _ & _ & H)
                                          |(body & Hd & _ & H)]])]])])];
    [congruence|..]; rewrite H; simpl.
  1-5: by exists false.
  exists true. split; [done|]. by exists url, body.
Qed.





(** ** Narration requests follow the scenes *)

Section OrderFacts.

Variable env : services.

Lemma tts_requests_app (evs1 evs2 : list event) :
  tts_requests (evs1 ++ evs2) = tts_requests evs1 ++ tts_requests evs2.
Proof. apply omap_app. Qed.

Lemma tts_requests_none (evs : list event) :
  Forall (λ ev, ~ is_tts ev) evs -> tts_requests evs = [].
Proof.
  induction 1 as [|ev evs Hev _ IH]; [done|].
  destruct ev; simpl in Hev; try tauto; exact IH.
Qed.

Lemma build_scene_rest_quiet topic total i scene :
  emits (λ ev, ~ is_tts ev)
    (audio_clip ← AudioFileClip (scene_path env i ".mp3");
     ok ← fetch_image_from_pexels env (safe_keyword_text scene topic)
            (scene_path env i ".jpg");
     (if ok : bool then mret ()
      else make_placeholder_image env (take 120 scene)
             (scene_path env i ".jpg") default_size);;
     im ← ImageClip (scene_path env i ".jpg");
     emit (Ev_progress (i + 1) total);;
     mret (scene_clip im audio_clip)).
Proof.
  unfold AudioFileClip, ImageClip.
  repeat first [ apply fetch_image_emits; intros; simpl; tauto
               | apply placeholder_emits
               | emits_step ]; by intros [].
Qed.

(** A scene makes one narration request, its own, whatever happens next. *)
Lemma build_scene_requests topic total i scene :
  traced (λ _ evs, tts_requests evs = [(scene, scene_path env i ".mp3")])
         (build_scene env topic total i scene).
Proof.
  unfold build_scene.
  eapply (traced_bind
            (λ _ evs, evs = [Ev_tts scene (scene_path env i ".mp3")])
            (λ _ evs, Forall (λ ev, ~ is_tts ev) evs)).
  - intros w. unfold synthesize, mbind, M_bind, emit, of_outcome. simpl.
    exists [Ev_tts scene (scene_path env i ".mp3")].
    by destruct (gtts_save env scene (scene_path env i ".mp3")).
  - intros _. apply build_scene_rest_quiet.
  - by intros e evs ->.
  - intros a evs1 o evs2 -> H2.
    by rewrite tts_requests_app, (tts_requests_none evs2 H2).
Qed.

Lemma build_scenes_requests topic total scenes :
  forall i acc w,
    exists evs k,
      log (build_scenes env topic total i scenes acc w).2 = log w ++ evs
      /\ tts_requests evs = take k (narration_plan env i scenes)
      /\ (forall clips,
            (build_scenes env topic total i scenes acc w).1 = Returned clips ->
            tts_requests evs = narration_plan env i scenes).
Proof.
  induction scenes as [|scene rest IH]; intros i acc w.
  - exists [], 0. simpl. by rewrite app_nil_r.
  - destruct (build_scene_requests topic total i scene w)
      as (evs1 & Hlog1 & H1).
    cbn [build_scenes].
    destruct (build_scene env topic total i scene w) as [[c|e] w1] eqn:E;
      simpl in Hlog1.
    + rewrite (run_bind _ _ _ _ _ E).
      destruct (IH (S i) (acc ++ [c]) w1) as (evs2 & k & Hlog2 & H2 & H3).
      exists (evs1 ++ evs2), (S k).
      split; [by rewrite Hlog2, Hlog1, app_assoc|].
      rewrite tts_requests_app, H1. simpl. split; [by rewrite H2|].
      intros clips Hc. by rewrite (H3 clips Hc).
    + rewrite (run_bind_raised _ _ _ _ _ E).
      exists evs1, 1. simpl. split; [done|]. split; [by rewrite take_0|].
      by intros clips.
Qed.

Lemma build_video_requests scenes topic out fps w :
  exists k,
    tts_requests (new_events w (build_video env scenes topic out fps w).2)
      = take k (narration_plan env 0 scenes)
    /\ ((build_video env scenes topic out fps w).1 = Returned () ->
        tts_requests (new_events w (build_video env scenes topic out fps w).2)
          = narration_plan env 0 scenes).
Proof.
  set (total := Nat.max (length scenes) 1).
  set (w0 := World (files w) (log w ++ [Ev_progress 0 total])).
  destruct (build_scenes_requests topic total scenes 0 [] w0)
    as (evs1 & k & Hlog1 & H1 & H2).
  assert (Hrun : build_video env scenes topic out fps w
                 = (build_scenes env topic total 0 scenes []
                      ≫= λ clips, assemble env clips out fps) w0)
    by reflexivity.
  destruct (build_scenes env topic total 0 scenes [] w0)
    as [[clips|e] w1] eqn:E; simpl in *.
  - destruct (assemble_emits_encode env clips out fps w1)
      as (evs2 & Hlog2 & Henc).
    rewrite (run_bind _ _ _ _ _ E) in Hrun. rewrite Hrun.
    assert (Hev : new_events w (assemble env clips out fps w1).2
                  = [Ev_progress 0 total] ++ evs1 ++ evs2).
    { apply new_events_app. by rewrite Hlog2, Hlog1, <- !app_assoc. }
    rewrite Hev, !tts_requests_app.
    assert (Hnone : tts_requests evs2 = []).
    { apply tts_requests_none. eapply Forall_impl; [exact Henc|].
      intros ev; destruct ev; simpl; tauto. }
    rewrite Hnone, app_nil_r. simpl.
    exists k. split; [exact H1|]. intros _. by apply (H2 clips).
  - rewrite (run_bind_raised _ _ _ _ _ E) in Hrun. rewrite Hrun. simpl.
    assert (Hev : new_events w w1 = [Ev_progress 0 total] ++ evs1).
    { apply new_events_app. by rewrite Hlog1, <- !app_assoc. }
    rewrite Hev, tts_requests_app. simpl.
    exists k. split; [exact H1|]. by intros.
Qed.

End OrderFacts.

(** X8.  A run asks for the narrations in the order of the scenes, one
    request per scene with the file of that scene as destination, and never
    asks twice: the requests of any run are a prefix of that plan, and of a
    run that returns they are the whole plan. *)
Theorem narration_requests_in_order (env : services) (scenes : list str)
    (topic : str) (out : string) (fps : nat) (w : world) :
  let run := build_video env scenes topic out fps w in
  (exists k, tts_requests (new_events w run.2)
             = take k (narration_plan env 0 scenes))
  /\ (run.1 = Returned () ->
      tts_requests (new_events w run.2) = narration_plan env 0 scenes).
Proof.
  intros run. subst run.
  destruct (build_video_requests env scenes topic out fps w) as (k & H1 & H2).
  eauto.
Qed.

Lemma narration_requests_in_order_witness :
  let run := build_video (demo_services None None) [py "one"; py "two"] []
               "/tmp/out.mp4" 24 fresh_world in
  tts_requests (new_events fresh_world run.2)
    = [(py "one", "/tmp/s2v_demo/scene_0.mp3");
       (py "two", "/tmp/s2v_demo/scene_1.mp3")].
Proof.
  intros run.
  apply (narration_requests_in_order (demo_services None None)
           [py "one"; py "two"] [] "/tmp/out.mp4" 24 fresh_world).
  reflexivity.
Defined.

(** ** Search and download failures never end a run *)

Section RobustFacts.

Variable env : services.
Hypothesis readable : secrets_missing env = None.
Hypothesis pictures : pictures_only env.

Lemma build_scene_built topic total i scene d w :
  gtts_save env scene (scene_path env i ".mp3") = Returned d ->
  placeholder_ok env i scene ->
  exists im w',
    build_scene env topic total i scene w
      = (Returned (scene_clip im (AudioClip (scene_path env i ".mp3") d)), w').
Proof.
  intros Hg [[measured Hm] Ho]. unfold build_scene.
  erewrite run_bind by (by apply synthesize_run).
  erewrite run_bind by (apply AudioFileClip_run; apply lookup_insert_eq).
  set (w1 := World (<[scene_path env i ".mp3" := AudioFile d]> (files w))
                   (log w ++ [Ev_tts scene (scene_path env i ".mp3")])).
  set (query := safe_keyword_text scene topic).
  destruct (fetch_image_result env query (scene_path env i ".jpg") w1
              readable) as (b & Hb & Hf).
  destruct (fetch_image_from_pexels env query (scene_path env i ".jpg") w1)
    as [o w2] eqn:E.
  simpl in Hb, Hf. subst o.
  erewrite run_bind by exact E.
  destruct b.
  - destruct Hf as (url & body & Hd & Hfiles).
    destruct (pictures url body Hd) as [im ->].
    erewrite run_bind by reflexivity.
    erewrite run_bind
      by (apply ImageClip_run; rewrite Hfiles; apply lookup_insert_eq).
    erewrite run_bind by reflexivity.
    by eexists _, _.
  - erewrite run_bind by (by apply make_placeholder_image_run).
    erewrite run_bind by (apply ImageClip_run; apply lookup_insert_eq).
    erewrite run_bind by reflexivity.
    by eexists _, _.
Qed.

Lemma build_scenes_built topic total scenes :
  forall i acc w,
    (forall j scene, scenes !! j = Some scene ->
       (exists d, gtts_save env scene (scene_path env (i + j) ".mp3")
                  = Returned d)
       /\ placeholder_ok env (i + j) scene) ->
    exists new w',
      build_scenes env topic total i scenes acc w
        = (Returned (acc ++ new), w')
      /\ length new = length scenes
      /\ (forall j scene, scenes !! j = Some scene ->
            exists d im,
              gtts_save env scene (scene_path env (i + j) ".mp3")
                = Returned d
              /\ new !! j
                 = Some (scene_clip im
                           (AudioClip (scene_path env (i + j) ".mp3") d))).
Proof.
  induction scenes as [|scene rest IH]; intros i acc w Hall; simpl.
  - exists [], w. rewrite app_nil_r. split; [done|]. split; [done|].
    by intros j s.
  - destruct (Hall 0 scene eq_refl) as [[d Hd] Hp].
    rewrite Nat.add_0_r in Hd, Hp.
    destruct (build_scene_built topic total i scene d w Hd Hp)
      as (im & w1 & Hc).
    erewrite run_bind by exact Hc.
    destruct (IH (S i) (acc ++ [scene_clip im
                 (AudioClip (scene_path env i ".mp3") d)]) w1)
      as (new & w' & Hrun & Hlen & Hnew).
    { intros j s Hj. destruct (Hall (S j) s Hj) as [[d' Hd'] Hp'].
      replace (S i + j) with (i + S j) by lia. eauto. }
    exists (scene_clip im (AudioClip (scene_path env i ".mp3") d) :: new), w'.
    rewrite Hrun, <- app_assoc. simpl.
    split; [done|]. split; [by rewrite Hlen|].
    intros [|j] s Hj; simpl in Hj.
    + injection Hj as <-. exists d, im. by rewrite Nat.add_0_r.
    + destruct (Hnew j s Hj) as (d' & im' & H1 & H2).
      exists d', im'. by replace (i + S j) with (S i + j) by lia.
Qed.

End RobustFacts.

Lemma max_over_const (f : video_clip -> Z) (v : Z) (clips : list video_clip) :
  (0 <= v)%Z -> clips <> [] -> Forall (λ c, f c = v) clips ->
  max_over f clips = v.
Proof.
  intros Hv Hne Hall. induction Hall as [|c clips Hc Hall IH]; [done|].
  simpl. rewrite Hc. destruct clips as [|c' clips]; [simpl; lia|].
  rewrite IH by done. lia.
Qed.

Lemma built_clips_timed (clips : list video_clip) :
  Forall built_clip clips ->
  forallb (λ c, bool_decide (is_Some (clip_duration c))) clips = true.
Proof.
  induction 1 as [|c clips (im & audio & ->) _ IH]; [done|].
  cbn [forallb]. rewrite IH, andb_true_r.
  apply bool_decide_eq_true_2. by eexists.
Qed.

(** Concatenating the clips of a non-empty scene list succeeds and gives a
    1280x720 timeline. *)
Lemma concatenate_built (clips : list video_clip) (w : world) :
  clips <> [] -> Forall built_clip clips ->
  concatenate_videoclips clips w
    = (Returned (Timeline (1280, 720)%Z clips), w).
Proof.
  intros Hne Hall. unfold concatenate_videoclips.
  rewrite (built_clips_timed clips Hall). simpl.
  destruct clips as [|c clips]; [done|].
  rewrite (max_over_const (λ c, (clip_size c).1) 1280 (c :: clips)),
    (max_over_const (λ c, (clip_size c).2) 720 (c :: clips)); try done.
  - eapply Forall_impl; [exact Hall|]. by intros ? (im & audio & ->).
  - eapply Forall_impl; [exact Hall|]. by intros ? (im & audio & ->).
Qed.

(** X9.  Failures of the search and of the download never end a run.  When
    the secrets can be read, the narration of every scene succeeds, every
    downloaded body is a picture and the placeholder of every scene can be
    drawn and saved, then whatever the searches and downloads answer
    (errors, no result, no usable address) the run reaches the encoder with
    one 1280x720 clip per scene, in order, each carrying the narration of
    its scene; from there the outcome is that of the encoders. *)
Theorem build_video_survives_image_failures (env : services)
    (scenes : list str) (topic : str) (out : string) (fps : nat)
    (w : world) :
  secrets_missing env = None ->
  pictures_only env ->
  scenes <> [] ->
  (forall j scene, scenes !! j = Some scene ->
     (exists d, gtts_save env scene (scene_path env j ".mp3") = Returned d)
     /\ placeholder_ok env j scene) ->
  exists final w1,
    build_video env scenes topic out fps w
      = encode_with_fallback env final out fps w1
    /\ tl_size final = (1280, 720)%Z
    /\ length (tl_clips final) = length scenes
    /\ (forall j scene, scenes !! j = Some scene ->
          exists d im,
            gtts_save env scene (scene_path env j ".mp3") = Returned d
            /\ tl_clips final !! j
               = Some (scene_clip im
                         (AudioClip (scene_path env j ".mp3") d))).
Proof.
  intros Hfile Hpic Hne Hall.
  destruct (build_scenes_built env Hfile Hpic topic
              (Nat.max (length scenes) 1) scenes 0 []
              (World (files w)
                     (log w ++ [Ev_progress 0 (Nat.max (length scenes) 1)]))
              Hall)
    as (clips & w1 & Hrun & Hlen & Hclips).
  simpl in Hrun.
  assert (Hbuilt : Forall built_clip clips).
  { apply Forall_forall. intros c Hc.
    apply list_elem_of_lookup in Hc as [j Hj].
    assert (Hj' : j < length scenes)
      by (rewrite <- Hlen; by eapply lookup_lt_Some).
    apply lookup_lt_is_Some in Hj' as [scene Hs].
    destruct (Hclips j scene Hs) as (d & im & _ & Hcj).
    simpl in Hcj. rewrite Hcj in Hj. injection Hj as <-. by eexists _, _. }
  assert (Hcne : clips <> []) by (destruct clips, scenes; done).
  pose proof (concatenate_built clips w1 Hcne Hbuilt) as Hcat.
  exists (Timeline (1280, 720)%Z clips), w1.
  split; [by apply (build_video_encodes env scenes topic out fps w w1 clips)|].
  split; [done|]. split; [exact Hlen|]. exact Hclips.
Qed.

Lemma stock_pictures_only : pictures_only stock_services.
Proof. intros url body H. injection H as <-. by eexists. Qed.

Lemma build_video_survives_image_failures_witness :
  let scenes := [py "space rockets!"; py "Hello."] in
  (exists photo, pexels_search stock_services "key-123"
                   (safe_keyword_text (py "space rockets!") [])
                 = Returned [photo])
  /\ (exists e, pexels_search stock_services "key-123"
                  (safe_keyword_text (py "Hello.") []) = Raised e)
  /\ exists final w1,
       build_video stock_services scenes [] "/tmp/out.mp4" 24 fresh_world
         = encode_with_fallback stock_services final "/tmp/out.mp4" 24 w1
       /\ tl_size final = (1280, 720)%Z
       /\ length (tl_clips final) = 2.
Proof.
  intros scenes. split; [by eexists|]. split; [by eexists|].
  destruct (build_video_survives_image_failures stock_services scenes []
              "/tmp/out.mp4" 24 fresh_world)
    as (final & w1 & H1 & H2 & H3 & _).
  - reflexivity.
  - exact stock_pictures_only.
  - done.
  - intros [|[|j]] scene Hj; simpl in Hj; try done; injection Hj as <-;
      (split; [by exists 3%Q|]); (split; [by eexists|reflexivity]).
  - by exists final, w1.
Defined.

(** ** Placeholder rendering is local *)



(** ** The button handler *)

Section HandlerFacts.

Variable env : services.

Lemma generate_clicked_unreadable script keywords out w e :
  strip script <> [] -> secrets_missing env = Some e ->
  generate_clicked env script keywords out w = Session [] (Failed e) w.
Proof.
  intros Hne He. unfold generate_clicked.
  rewrite bool_decide_eq_false_2 by done. by rewrite He.
Qed.

Lemma generate_clicked_run script keywords out w :
  strip script <> [] ->
  secrets_missing env = None ->
  let run := build_video env (split_into_scenes script) keywords out 24 w in
  let s := generate_clicked env script keywords out w in
  after s = run.2
  /\ (result s = Finished <-> run.1 = Returned ())
  /\ (forall e, result s = Failed e <-> run.1 = Raised e)
  /\ (Ui_success ∈ shown s <-> run.1 = Returned ())
  /\ ((exists msg, Ui_warning msg ∈ shown s)
      <-> secrets env !! "PEXELS_API_KEY" = None).
Proof.
  intros Hne Hfile run s. subst run s. unfold generate_clicked.
  rewrite bool_decide_eq_false_2 by done. rewrite Hfile.
  destruct (build_video env (split_into_scenes script) keywords out 24 w)
    as [[[]|e] w'] eqn:E; simpl.
  - split; [done|]. split; [done|]. split; [by intros e|].
    split.
    { split; [done|]. intros _. apply list_elem_of_In, in_or_app. right.
      simpl. tauto. }
    destruct (secrets env !! "PEXELS_API_KEY"); simpl.
    + split; [|done]. intros [msg H].
      apply list_elem_of_In in H. simpl in H.
      by destruct H as [H|[H|[H|[H|[]]]]].
    + split; [done|]. intros _. eexists. apply list_elem_of_here.
  - split; [done|]. split; [done|].
    split; [intros e'; split; congruence|].
    split.
    { split; [|done]. intros H. apply list_elem_of_In, in_app_or in H.
      destruct H as [H|H].
      - destruct (secrets env !! "PEXELS_API_KEY"); simpl in H;
          intuition congruence.
      - simpl in H. intuition congruence. }
    destruct (secrets env !! "PEXELS_API_KEY"); simpl.
    + split; [|done]. intros [msg H].
      apply list_elem_of_In in H. simpl in H.
      by destruct H as [H|[]].
    + split; [done|]. intros _. eexists. apply list_elem_of_here.
Qed.

Lemma narration_plan_texts i scenes :
  Forall (λ scene : str, scene <> []) scenes ->
  Forall (λ req : str * string, req.1 <> []) (narration_plan env i scenes).
Proof.
  intros H. revert i. induction H as [|scene scenes Hs _ IH]; intros i;
    simpl; constructor; auto.
Qed.

End HandlerFacts.

(** X11.  The click handler starts the pipeline only for a script that is
    not blank.  For a blank script it shows the error and leaves the world
    untouched.  For any other script: without secrets file it ends with the
    exception of the test of line 161, showing nothing and running nothing;
    with readable secrets it runs [build_video] on the scenes of the script
    and shows the success message exactly when that run returned (it ends
    with the exception of the run otherwise), and no narration request of
    the run carries an empty text. *)
Theorem generate_clicked_guard (env : services) (script keywords : str)
    (out : string) (w : world) :
  let s := generate_clicked env script keywords out w in
  let run := build_video env (split_into_scenes script) keywords out 24 w in
  (strip script = [] ->
     s = Session [Ui_error "Please paste a script first."] Stopped w)
  /\ (strip script <> [] ->
      (forall e, secrets_missing env = Some e ->
                 s = Session [] (Failed e) w)
      /\ (secrets_missing env = None ->
          after s = run.2
          /\ (Ui_success ∈ shown s <-> run.1 = Returned ())
          /\ (result s = Finished <-> run.1 = Returned ())
          /\ (forall e, result s = Failed e <-> run.1 = Raised e)
          /\ Forall (λ req : str * string, req.1 <> [])
                    (tts_requests (new_events w (after s))))).
Proof.
  intros s run. subst s run. split.
  - intros H. unfold generate_clicked. by rewrite bool_decide_eq_true_2.
  - intros Hne. split.
    + intros e He. by apply generate_clicked_unreadable.
    + intros Hfile.
      destruct (generate_clicked_run env script keywords out w Hne Hfile)
        as (Ha & Hr & Hf & Hs & _).
      split; [exact Ha|]. split; [exact Hs|]. split; [exact Hr|].
      split; [exact Hf|]. rewrite Ha.
      destruct (build_video_requests env (split_into_scenes script) keywords
                  out 24 w) as (k & -> & _).
      apply Forall_take, narration_plan_texts.
      eapply Forall_impl; [by apply split_into_scenes_solid|].
      by intros scene [H _].
Qed.

Lemma generate_clicked_guard_witness :
  generate_clicked (demo_services None None) (py "   ") [] "/tmp/out.mp4"
    fresh_world
    = Session [Ui_error "Please paste a script first."] Stopped fresh_world
  /\ generate_clicked bare_services (py " Hi. ") [] "/tmp/out.mp4"
       fresh_world
     = Session [] (Failed no_secrets_file) fresh_world
  /\ Ui_success ∈ shown (generate_clicked (demo_services None None)
                           (py " Hi. ") [] "/tmp/out.mp4" fresh_world)
  /\ tts_requests
       (new_events fresh_world
          (after (generate_clicked (demo_services None None) (py " Hi. ") []
                    "/tmp/out.mp4" fresh_world)))
     = [(py "Hi.", "/tmp/s2v_demo/scene_0.mp3")].
Proof.
  split; [|split; [|split]].
  - by apply (generate_clicked_guard (demo_services None None) (py "   ")).
  - apply (generate_clicked_guard bare_services (py " Hi. ") []
             "/tmp/out.mp4" fresh_world); [by vm_compute | reflexivity].
  - destruct (generate_clicked_guard (demo_services None None) (py " Hi. ")
                [] "/tmp/out.mp4" fresh_world) as [_ H].
    destruct (H ltac:(by vm_compute)) as [_ H'].
    destruct (H' eq_refl) as (_ & Hs & _).
    apply Hs. reflexivity.
  - reflexivity.
Defined.

(** X12.  With readable secrets the page warns about placeholders exactly
    when the key is absent from the secrets (line 161), while the image
    provider is skipped whenever the key is falsy (line 74): with a key
    that is present but empty, a run makes no image request and shows no
    warning. *)
Theorem placeholder_warning_only_without_key (env : services)
    (script keywords : str) (out : string) (w : world) :
  strip script <> [] ->
  secrets_missing env = None ->
  let s := generate_clicked env script keywords out w in
  ((exists msg, Ui_warning msg ∈ shown s)
   <-> secrets env !! "PEXELS_API_KEY" = None)
  /\ (secrets env !! "PEXELS_API_KEY" = Some "" ->
        (forall msg, Ui_warning msg ∉ shown s)
        /\ Forall (λ ev, ~ is_image_request ev) (new_events w (after s))).
Proof.
  intros Hne Hfile s. subst s.
  destruct (generate_clicked_run env script keywords out w Hne Hfile)
    as (Ha & _ & _ & _ & Hw).
  split; [exact Hw|]. intros Hkey. split.
  - intros msg Hin. assert (Hnone : secrets env !! "PEXELS_API_KEY" = None)
      by (apply Hw; eauto).
    congruence.
  - rewrite Ha.
    assert (Hno : unconfigured env)
      by (split; [done|]; by rewrite Hkey).
    destruct (build_video_no_image_request env Hno (split_into_scenes script)
                keywords out 24 w) as (evs & Hlog & H).
    by rewrite (new_events_app _ _ _ Hlog).
Qed.

Lemma placeholder_warning_only_without_key_witness :
  let s := generate_clicked empty_key_services (py "Hello world. Bye.") []
             "/tmp/out.mp4" fresh_world in
  result s = Finished
  /\ (forall msg, Ui_warning msg ∉ shown s)
  /\ Forall (λ ev, ~ is_image_request ev) (new_events fresh_world (after s)).
Proof.
  intros s. split; [reflexivity|].
  apply (placeholder_warning_only_without_key empty_key_services
           (py "Hello world. Bye.") [] "/tmp/out.mp4" fresh_world);
    [by vm_compute | reflexivity | reflexivity].
Defined.

(** ** Where scenes end *)

Section BoundaryFacts.

Implicit Types (s t p q cur sep : str) (l : list str) (c : N).

Lemma terminator_not_space c : is_terminator c = true -> isspace c = false.
Proof.
  unfold is_terminator. rewrite !orb_true_iff, !N.eqb_eq.
  by intros [[->| ->]| ->].
Qed.

Lemma re_split_go_pieces s :
  forall after_term in_gap cur,
    (after_term = true ->
       exists c cur', cur = c :: cur' /\ is_terminator c = true) ->
    exists init last,
      re_split_go after_term in_gap cur s = init ++ [last]
      /\ Forall ends_with_terminator init.
Proof.
  induction s as [|c s IH]; intros after_term in_gap cur Hinv.
  - by exists [], (rev cur).
  - simpl. destruct (isspace c).
    + destruct in_gap; [by apply IH|].
      destruct after_term; [|by apply IH].
      destruct (Hinv eq_refl) as (c0 & cur' & -> & Hc0).
      destruct (IH false true [] ltac:(done)) as (init & last & -> & Hi).
      exists (rev (c0 :: cur') :: init), last. split; [done|].
      constructor; [|done]. by exists (rev cur'), c0.
    + apply IH. intros Hc. by exists c, cur.
Qed.

Lemma lstrip_snoc q c :
  isspace c = false -> exists q', lstrip (q ++ [c]) = q' ++ [c].
Proof.
  intros Hc. induction q as [|a q IH]; simpl.
  - rewrite Hc. by exists [].
  - destruct (isspace a); [exact IH|]. by exists (a :: q).
Qed.

Lemma strip_ends p :
  ends_with_terminator p ->
  ends_with_terminator (strip p) /\ strip p <> [].
Proof.
  intros (q & c & -> & Hc).
  pose proof (terminator_not_space c Hc) as Hns.
  destruct (lstrip_snoc q c Hns) as [q' Hq].
  assert (E : strip (q ++ [c]) = q' ++ [c]).
  { unfold strip, rstrip. rewrite Hq, rev_app_distr. simpl.
    rewrite Hns. simpl. by rewrite rev_involutive. }
  rewrite E. split; [by exists q', c | by destruct q'].
Qed.

Lemma stripped_nonempty_app l1 l2 :
  stripped_nonempty (l1 ++ l2) = stripped_nonempty l1 ++ stripped_nonempty l2.
Proof. unfold stripped_nonempty. by rewrite fmap_app, filter_app. Qed.

Lemma stripped_nonempty_ends l :
  Forall ends_with_terminator l ->
  Forall ends_with_terminator (stripped_nonempty l).
Proof.
  intros H. apply Forall_forall. intros p Hp.
  unfold stripped_nonempty in Hp.
  apply list_elem_of_filter in Hp as [_ Hp].
  apply list_elem_of_fmap in Hp as (x & -> & Hx).
  rewrite Forall_forall in H. by apply strip_ends, H.
Qed.

Lemma stripped_nonempty_single p : length (stripped_nonempty [p]) <= 1.
Proof.
  unfold stripped_nonempty. simpl. rewrite filter_cons.
  destruct (decide (strip p ≠ [])); simpl; lia.
Qed.

(** All sentences but possibly the last end with a terminator. *)
Lemma sentences_shape t :
  exists front tail,
    sentences_of t = front ++ tail
    /\ Forall ends_with_terminator front
    /\ length tail <= 1.
Proof.
  destruct (re_split_go_pieces t false false [] ltac:(done))
    as (init & last & E & Hi).
  exists (stripped_nonempty init), (stripped_nonempty [last]).
  unfold sentences_of, re_split_sentences.
  rewrite E, stripped_nonempty_app.
  split; [done|]. split; [by apply stripped_nonempty_ends|].
  apply stripped_nonempty_single.
Qed.

Lemma app_prefix {A} (a b c d : list A) :
  a ++ b = c ++ d -> length a <= length c -> exists k, c = a ++ k.
Proof.
  revert c. induction a as [|x a IH]; intros c E Hlen; [by exists c|].
  destruct c as [|y c]; simpl in *; [lia|].
  injection E as -> E. destruct (IH c E ltac:(lia)) as [k ->]. by exists k.
Qed.

Lemma str_join_last sep (pre : list str) x :
  exists z, str_join sep (pre ++ [x]) = z ++ x.
Proof.
  induction pre as [|y pre [z IH]]; [by exists []|].
  destruct pre as [|y' pre].
  - exists (y ++ sep). simpl. by rewrite <- app_assoc.
  - exists (y ++ sep ++ z).
    change (str_join sep ((y :: y' :: pre) ++ [x]))
      with (y ++ sep ++ str_join sep ((y' :: pre) ++ [x])).
    rewrite IH. by rewrite <- !app_assoc.
Qed.

Lemma str_join_ends sep (chunk : list str) :
  chunk <> [] -> Forall ends_with_terminator chunk ->
  ends_with_terminator (str_join sep chunk).
Proof.
  intros Hne Hall.
  destruct chunk as [|x0 chunk0] using rev_ind; [done|]. clear IHchunk0.
  apply Forall_app in Hall as [_ Hx]. inversion Hx as [|? ? (q & c & -> & Hc) _].
  destruct (str_join_last sep chunk0 (q ++ [c])) as [z ->].
  exists (z ++ q), c. by rewrite <- app_assoc.
Qed.

Lemma group_sentences_ends (sentences : list str) :
  (exists front tail, sentences = front ++ tail
                      /\ Forall ends_with_terminator front
                      /\ length tail <= 1) ->
  sentences <> [] ->
  exists init last,
    group_sentences sentences = init ++ [last]
    /\ Forall ends_with_terminator init.
Proof.
  intros (front & tail & Hs & Hf & Ht) Hne.
  destruct (group_sentences_chunks sentences Hne)
    as (full & last & H1 & H2 & H3 & H4).
  exists (str_join [SP] <$> full), (str_join [SP] last).
  split; [by rewrite H1, fmap_app|].
  rewrite concat_app in H2. simpl in H2. rewrite app_nil_r, Hs in H2.
  assert (Hlen : length (concat full) <= length front).
  { apply (f_equal length) in H2. rewrite !length_app in H2. lia. }
  destruct (app_prefix _ _ _ _ H2 Hlen) as [k Hk].
  rewrite Hk in Hf. apply Forall_app in Hf as [Hf _].
  apply Forall_fmap, Forall_forall. intros chunk Hin. simpl.
  apply str_join_ends.
  - rewrite Forall_forall in H3. apply H3 in Hin. by destruct chunk.
  - apply Forall_forall. intros x Hx.
    rewrite Forall_forall in Hf. apply Hf.
    apply list_elem_of_In, in_concat.
    exists chunk. split; by apply list_elem_of_In.
Qed.

Lemma strip_free sep p :
  str_contains sep p = false -> str_contains sep (strip p) = false.
Proof.
  intros H. destruct (str_contains sep (strip p)) eqn:E; [|done].
  apply str_contains_strip in E. congruence.
Qed.

End BoundaryFacts.

(** ** What a sentence is *)

Section SentenceFacts.

Implicit Types (s t p q cur : str) (c : N).

Lemma weave_cons p g (ps gs : list str) :
  weave (p :: ps) (g :: gs) = p ++ g ++ weave ps gs.
Proof. reflexivity. Qed.

(** The pieces of the regex split, with the whitespace runs it removed put
    back between them, are the text. *)
Lemma re_split_go_weave s :
  forall after_term in_gap cur,
    exists lead rest gaps,
      s = lead ++ rest
      /\ all_space lead
      /\ (in_gap = false -> lead = [])
      /\ weave (re_split_go after_term in_gap cur s) gaps = rev cur ++ rest
      /\ length (re_split_go after_term in_gap cur s) = S (length gaps)
      /\ Forall (λ g, g <> [] /\ all_space g) gaps.
Proof.
  induction s as [|c s IH]; intros after_term in_gap cur.
  - exists [], [], []. simpl. rewrite !app_nil_r.
    repeat split; constructor.
  - simpl. destruct (isspace c) eqn:Hc.
    + destruct in_gap.
      * destruct (IH false true cur)
          as (lead & rest & gaps & -> & Hl & _ & Hw & Hn & Hg).
        exists (c :: lead), rest, gaps.
        repeat split; try done. by constructor.
      * destruct after_term.
        -- destruct (IH false true [])
             as (lead & rest & gaps & -> & Hl & _ & Hw & Hn & Hg).
           exists [], (c :: lead ++ rest), ((c :: lead) :: gaps).
           split; [done|]. split; [constructor|]. split; [done|].
           split.
           { rewrite weave_cons, Hw. done. }
           split; [simpl; by rewrite Hn|].
           constructor; [|done]. split; [done|]. by constructor.
        -- destruct (IH false false (c :: cur))
             as (lead & rest & gaps & -> & Hl & Hnil & Hw & Hn & Hg).
           rewrite (Hnil eq_refl) in *. simpl in *.
           exists [], (c :: rest), gaps.
           split; [done|]. split; [constructor|]. split; [done|].
           split; [by rewrite Hw, <- app_assoc|]. by split.
    + destruct (IH (is_terminator c) false (c :: cur))
        as (lead & rest & gaps & -> & Hl & Hnil & Hw & Hn & Hg).
      rewrite (Hnil eq_refl) in *. simpl in *.
      exists [], (c :: rest), gaps.
      split; [done|]. split; [constructor|]. split; [done|].
      split; [by rewrite Hw, <- app_assoc|]. by split.
Qed.

Lemma inner_break_snoc p x :
  inner_break (p ++ [x]) ->
  inner_break p
  \/ exists q c, p = q ++ [c] /\ is_terminator c = true /\ isspace x = true.
Proof.
  intros (a & c & d & b & E & Hc & Hd).
  destruct b as [|y b _] using rev_ind.
  - right. exists a, c.
    replace (a ++ [c; d]) with ((a ++ [c]) ++ [d]) in E
      by (by rewrite <- app_assoc).
    apply app_inj_tail in E as [-> ->]. done.
  - left. exists a, c, d, b.
    replace (a ++ c :: d :: b ++ [y]) with ((a ++ c :: d :: b) ++ [y]) in E
      by (by rewrite <- app_assoc).
    apply app_inj_tail in E as [-> _]. done.
Qed.

Lemma no_break_push cur c :
  ~ inner_break (rev cur) ->
  (isspace c = true ->
   forall c0 cur0, cur = c0 :: cur0 -> is_terminator c0 = false) ->
  ~ inner_break (rev (c :: cur)).
Proof.
  intros Hno Hhead Hb. simpl in Hb.
  apply inner_break_snoc in Hb as [Hb|(q & c0 & E & Ht & Hs)]; [done|].
  apply (f_equal (@rev N)) in E.
  rewrite rev_involutive, rev_app_distr in E. simpl in E.
  rewrite (Hhead Hs c0 (rev q) E) in Ht. done.
Qed.

(** No piece of the regex split still contains a boundary. *)
Lemma re_split_go_no_break s :
  forall after_term in_gap cur,
    ~ inner_break (rev cur) ->
    (in_gap = false -> after_term = false ->
     forall c0 cur0, cur = c0 :: cur0 -> is_terminator c0 = false) ->
    Forall (λ p, ~ inner_break p) (re_split_go after_term in_gap cur s).
Proof.
  induction s as [|c s IH]; intros after_term in_gap cur Hno Hhead.
  - by repeat constructor.
  - simpl. destruct (isspace c) eqn:Hc.
    + destruct in_gap; [by apply IH|].
      destruct after_term.
      * constructor; [done|]. apply IH; [|done].
        intros (a & x & y & b & E & _). by destruct a.
      * apply IH.
        -- apply no_break_push; [done|]. intros _. by apply Hhead.
        -- intros _ _ c0 cur0 [= <- <-].
           destruct (is_terminator c) eqn:Ht; [|done].
           apply terminator_not_space in Ht. congruence.
    + apply IH.
      * apply no_break_push; [done|]. intros Hs. congruence.
      * intros _ Ht c0 cur0 [= <- <-]. exact Ht.
Qed.

(** Lines 52-53 in the words of the boundary rule: the trimmed script is a
    sequence of pieces separated by runs of whitespace; every piece but the
    last ends with one of [.!?]; no piece contains a terminator followed by
    whitespace; the sentences are the pieces, trimmed, the empty ones
    dropped. *)
Lemma sentences_by_boundary_rule t :
  exists pieces gaps init last,
    weave pieces gaps = t
    /\ length pieces = S (length gaps)
    /\ Forall (λ g, g <> [] /\ all_space g) gaps
    /\ pieces = init ++ [last]
    /\ Forall ends_with_terminator init
    /\ Forall (λ p, ~ inner_break p) pieces
    /\ sentences_of t = filter (λ p : str, p ≠ []) (strip <$> pieces).
Proof.
  destruct (re_split_go_weave t false false [])
    as (lead & rest & gaps & E & _ & Hnil & Hw & Hn & Hg).
  rewrite (Hnil eq_refl) in E. simpl in E, Hw. subst rest.
  destruct (re_split_go_pieces t false false [] ltac:(done))
    as (init & last & Hp & Hi).
  exists (re_split_sentences t), gaps, init, last.
  unfold re_split_sentences.
  split; [exact Hw|]. split; [exact Hn|]. split; [exact Hg|].
  split; [exact Hp|]. split; [exact Hi|]. split; [|done].
  apply re_split_go_no_break; [|done].
  intros (a & x & y & b & E & _). by destruct a.
Qed.

End SentenceFacts.

(** C5.  For a script without blank-line separator that has at least one
    sentence, [split_into_scenes] returns the sentences grouped in order:
    the chunks, concatenated, are the sentences of the script; every chunk
    but the last has exactly 3 sentences and the last has 1 to 3; each scene
    is its chunk joined with single spaces, and no scene is empty.  The
    sentences are those of the boundary rule: the trimmed script is a
    sequence of pieces separated by runs of whitespace, each piece but the
    last ending with one of . ! ? and none containing one of them followed
    by whitespace, and the sentences are these pieces, trimmed, the empty
    ones dropped. *)
Theorem split_into_scenes_sentences (script : str) :
  str_contains blank_line script = false ->
  sentences_of (strip script) <> [] ->
  (exists full last,
     split_into_scenes script = str_join [SP] <$> (full ++ [last])
     /\ concat (full ++ [last]) = sentences_of (strip script)
     /\ Forall (λ c, length c = 3) full
     /\ 1 <= length last <= 3
     /\ Forall (λ scene : str, scene <> []) (split_into_scenes script))
  /\ (exists pieces gaps init final,
        weave pieces gaps = strip script
        /\ length pieces = S (length gaps)
        /\ Forall (λ g, g <> [] /\ all_space g) gaps
        /\ pieces = init ++ [final]
        /\ Forall ends_with_terminator init
        /\ Forall (λ p, ~ inner_break p) pieces
        /\ sentences_of (strip script)
           = filter (λ p : str, p ≠ []) (strip <$> pieces)).
Proof.
  intros Hc Hne. split; [|apply sentences_by_boundary_rule].
  apply split_into_scenes_sentence_path; [|exact Hne].
  destruct (str_contains blank_line (strip script)) eqn:E; [|done].
  apply str_contains_strip in E. congruence.
Qed.

Lemma split_into_scenes_sentences_witness :
  let script := py "A. B! C? D.  E" in
  sentences_of (strip script) = [py "A."; py "B!"; py "C?"; py "D."; py "E"]
  /\ split_into_scenes script = [py "A. B! C?"; py "D. E"]
  /\ (exists full last,
        split_into_scenes script = str_join [SP] <$> (full ++ [last])
        /\ concat (full ++ [last]) = sentences_of (strip script)
        /\ Forall (λ c, length c = 3) full
        /\ 1 <= length last <= 3
        /\ Forall (λ scene : str, scene <> []) (split_into_scenes script))
  /\ (exists pieces gaps init final,
        weave pieces gaps = strip script
        /\ length pieces = S (length gaps)
        /\ Forall (λ g, g <> [] /\ all_space g) gaps
        /\ pieces = init ++ [final]
        /\ Forall ends_with_terminator init
        /\ Forall (λ p, ~ inner_break p) pieces
        /\ sentences_of (strip script)
           = filter (λ p : str, p ≠ []) (strip <$> pieces)).
Proof.
  intros script. split; [reflexivity|]. split; [reflexivity|].
  apply (split_into_scenes_sentences script); [reflexivity | by vm_compute].
Defined.

(** X13.  Without blank-line separator in the trimmed script, a scene ends
    only where a sentence ends: every scene but the last ends with one of
    the characters . ! ? *)
Theorem sentence_scenes_end_with_terminator (script : str) :
  str_contains blank_line (strip script) = false ->
  exists init last,
    split_into_scenes script = init ++ [last]
    /\ Forall ends_with_terminator init.
Proof.
  intros Hc. unfold split_into_scenes. rewrite Hc.
  destruct (sentences_of (strip script)) as [|x l] eqn:E.
  - by exists [], (strip script).
  - destruct (group_sentences_ends (x :: l)) as (init & last & Hg & Hi);
      [rewrite <- E; apply sentences_shape | done |].
    rewrite Hg. exists init, last. split; [|done].
    by destruct init.
Qed.

Lemma sentence_scenes_end_with_terminator_witness :
  exists init last,
    split_into_scenes (py "One. Two! Three? Four. Five. Six. Seven")
      = init ++ [last]
    /\ Forall ends_with_terminator init.
Proof.
  by apply (sentence_scenes_end_with_terminator
              (py "One. Two! Three? Four. Five. Six. Seven")).
Defined.

(** X14.  With a blank-line separator in the trimmed script, no scene
    spans a blank line: no scene contains two consecutive newlines. *)
Theorem paragraph_scenes_have_no_blank_line (script : str) :
  str_contains blank_line (strip script) = true ->
  Forall (λ scene, str_contains blank_line scene = false)
         (split_into_scenes script).
Proof.
  intros Hc.
  assert (Hparts : Forall (λ scene, str_contains blank_line scene = false)
                     (stripped_nonempty (str_split blank_line (strip script)))).
  { apply Forall_forall. intros p Hp.
    pose proof (stripped_nonempty_spec (str_split blank_line (strip script)))
      as Hspec.
    rewrite Forall_forall in Hspec.
    destruct (Hspec p Hp) as (_ & x & Hx & ->).
    apply strip_free.
    pose proof (str_split_free blank_line (strip script) ltac:(done)) as Hfree.
    rewrite Forall_forall in Hfree. by apply Hfree. }
  assert (Hne : stripped_nonempty (str_split blank_line (strip script)) <> []).
  { intros Hnil. apply stripped_nonempty_nil in Hnil.
    apply (str_join_all_space blank_line _ blank_line_all_space) in Hnil.
    rewrite str_split_join in Hnil by done.
    apply strip_all_space_nil in Hnil. rewrite Hnil in Hc. discriminate Hc. }
  unfold split_into_scenes. rewrite Hc.
  by destruct (stripped_nonempty (str_split blank_line (strip script))).
Qed.

Lemma paragraph_scenes_have_no_blank_line_witness :
  Forall (λ scene, str_contains blank_line scene = false)
         (split_into_scenes (py "a" ++ [NL; NL; NL] ++ py "b." ++ [NL; NL]
                             ++ py "c")).
Proof.
  by apply paragraph_scenes_have_no_blank_line.
Defined.

(** ** What is asked of the image provider *)

Lemma truthy_some (v : option string) (u : string) :
  truthy v = Some u -> v = Some u /\ u <> "".
Proof.
  destruct v as [x|]; simpl; [|done].
  destruct (bool_decide (x = "")) eqn:E; [done|].
  intros [= ->]. split; [done|]. by apply bool_decide_eq_false_1 in E.
Qed.

Lemma first_truthy_choice (a b c : option string) (u : string) :
  first_truthy a b c = Some u ->
  u <> ""
  /\ (a = Some u
      \/ (truthy a = None
          /\ (b = Some u \/ (truthy b = None /\ c = Some u)))).
Proof.
  unfold first_truthy.
  destruct (truthy a) as [x|] eqn:Ea.
  - intros [= ->]. apply truthy_some in Ea as [-> H].
    split; [done|]. by left.
  - destruct (truthy b) as [y|] eqn:Eb.
    + intros [= ->]. apply truthy_some in Eb as [-> H].
      split; [done|]. right. split; [done|]. by left.
    + intros H. apply truthy_some in H as [-> H].
      split; [done|]. right. split; [done|]. right. by split.
Qed.

(** X15.  Only the first photo of the search result is ever downloaded, in
    its first non-empty rendition among "large", "medium" and "original",
    in this order of preference. *)
Theorem fetch_image_download_choice (env : services) (query : str)
    (dest : string) (w : world) (url : string) :
  let run := fetch_image_from_pexels env query dest w in
  let key := default "" (secrets env !! "PEXELS_API_KEY") in
  Ev_download url ∈ new_events w run.2 ->
  exists photo others,
    pexels_search env key query = Returned (photo :: others)
    /\ url <> ""
    /\ (photo !! "large" = Some url
        \/ (truthy (photo !! "large") = None
            /\ (photo !! "medium" = Some url
                \/ (truthy (photo !! "medium") = None
                    /\ photo !! "original" = Some url)))).
Proof.
  intros run key. subst run key. intros Hin.
  assert (Hpick : forall photos u,
            pexels_search env (default "" (secrets env !! "PEXELS_API_KEY"))
              query = Returned photos ->
            chosen_url photos = Some u ->
            Ev_download url
              ∈ [Ev_search (default "" (secrets env !! "PEXELS_API_KEY")) query;
                 Ev_download u] ->
            exists photo others,
              pexels_search env (default "" (secrets env !! "PEXELS_API_KEY"))
                query = Returned (photo :: others)
              /\ url <> ""
              /\ (photo !! "large" = Some url
                  \/ (truthy (photo !! "large") = None
                      /\ (photo !! "medium" = Some url
                          \/ (truthy (photo !! "medium") = None
                              /\ photo !! "original" = Some url))))).
  { intros photos u Hs Hu H. apply list_elem_of_In in H. simpl in H.
    destruct H as [H|[H|[]]]; [done|]. injection H as ->.
    destruct photos as [|photo others]; [done|]. simpl in Hu.
    apply first_truthy_choice in Hu as [Hne Hc]. eauto. }
  destruct (fetch_image_table env query dest w)
    as [(e & _ & H)|(_ & [[_ H]|(_ & [(e & _ & H)|[(ph & _ & _ & H)
         |(ph & u & Hs & Hu & [(e & _ & H)|[(body & e & _ & _ & H)
                                           |(body & _ & _ & H)]])]])])];
    rewrite H in Hin; simpl in Hin;
    rewrite ?new_events_same, ?new_events_world in Hin;
    apply list_elem_of_In in Hin; simpl in Hin.
  - done.
  - done.
  - by destruct Hin as [?|[?|[]]].
  - by destruct Hin as [?|[]].
  - apply (Hpick ph u Hs Hu). apply list_elem_of_In. simpl.
    destruct Hin as [?|[?|[?|[]]]]; try done; tauto.
  - apply (Hpick ph u Hs Hu). apply list_elem_of_In. simpl.
    destruct Hin as [?|[?|[?|[]]]]; try done; tauto.
  - apply (Hpick ph u Hs Hu). by apply list_elem_of_In.
Qed.

Lemma fetch_image_download_choice_witness :
  exists photo,
    pexels_search stock_services "key-123" (py "space rockets")
      = Returned [photo]
    /\ photo !! "large" = None
    /\ photo !! "medium" = Some "https://images.example/1.jpg".
Proof.
  destruct (fetch_image_download_choice stock_services (py "space rockets")
              "/tmp/s2v_stock/scene_0.jpg" fresh_world
              "https://images.example/1.jpg")
    as (photo & others & Hs & _ & _).
  - vm_compute. apply list_elem_of_In. simpl. tauto.
  - vm_compute in Hs. injection Hs as <- <-.
    eexists. split; [reflexivity|]. by split.
Defined.

Section RequestFacts.

Variable env : services.

Lemma fetch_image_well_formed query dest :
  query <> [] ->
  emits well_formed_request (fetch_image_from_pexels env query dest).
Proof.
  intros Hq. unfold fetch_image_from_pexels.
  apply emits_bind; [apply emits_read_secrets|]. intros found.
  destruct (bool_decide _) eqn:Hk; [apply emits_ret|].
  apply bool_decide_eq_false_1 in Hk.
  repeat emits_step; by simpl.
Qed.

Lemma build_scenes_well_formed topic total scenes :
  forall i acc,
    emits well_formed_request (build_scenes env topic total i scenes acc).
Proof.
  induction scenes as [|scene rest IH]; intros i acc; simpl.
  - apply emits_ret.
  - apply emits_bind; [|intros ?; apply IH].
    unfold build_scene, synthesize, AudioFileClip, ImageClip.
    repeat first [ apply fetch_image_well_formed;
                   apply safe_keyword_text_not_nil
                 | apply placeholder_emits
                 | emits_step ]; by simpl.
Qed.

Lemma build_video_well_formed scenes topic out fps :
  emits well_formed_request (build_video env scenes topic out fps).
Proof.
  unfold build_video. apply emits_bind; [by apply emits_emit|].
  intros _. apply emits_bind; [apply build_scenes_well_formed|].
  intros clips. apply (emits_weaken is_encode);
    [intros ev; destruct ev; simpl; tauto|].
  apply assemble_emits_encode.
Qed.

End RequestFacts.

(** X16.  A run never searches with an empty key or an empty query. *)
Theorem image_searches_are_well_formed (env : services) (scenes : list str)
    (topic : str) (out : string) (fps : nat) (w : world) :
  Forall well_formed_request
         (new_events w (build_video env scenes topic out fps w).2).
Proof.
  destruct (build_video_well_formed env scenes topic out fps w)
    as (evs & Hlog & H).
  by rewrite (new_events_app _ _ _ Hlog).
Qed.
